(** * config-shard-validator: the partition and injection checks

    A shallow embedding of [cmd/config-shard-validator/main.go].  The tool
    walks the CI-operator configuration tree and the Prow job tree of a
    release repository and checks every discovered file against the
    [config_updater] glob rules of the Prow plugin configuration, and every
    [CONFIG_SPEC] environment entry of a job against the index of
    CI-operator configuration files.

    The program reports through [logrus] and a boolean [foundFailures];
    both are kept here: every function that logs lives in the writer monad
    [Log], whose output is the sequence of emitted log entries. *)

From Stdlib Require Import String Ascii ZArith List Bool Permutation.
From stdpp Require Import base option list gmap strings fin_maps.

Local Open Scope string_scope.
Local Open Scope list_scope.

(** ** Log entries (logrus) *)

Inductive Level := FatalLevel | ErrorLevel | WarnLevel.

(** Values stored in [logrus.Fields] by this program: strings, the
    container index and [error] values (kept as their text). *)
Inductive FieldValue :=
| FString (s : string)
| FInt (n : Z)
| FError (e : string).

(** The messages the program logs, with the arguments of their format
    strings. *)
Inductive Message :=
| MsgDefaultCluster (alias : string)
| MsgGlobMatchFailed
| MsgJobConfigCheckFailed
| MsgGzipRequired
| MsgMultipleConfigMaps (matched expected : string)
| MsgUnexpectedConfigMap (got expected : string)
| MsgNoAutoUpdatingConfig
| MsgUnknownKey
| MsgInvalidShard
| MsgFoundFailures
| MsgInvalidOptions (err : string).


Record Entry := mkEntry {
  entryLevel : Level;
  entryData : gmap string FieldValue;
  entryMessage : Message
}.

#[global] Instance Level_eq_dec : EqDecision Level.
Proof. solve_decision. Defined.
#[global] Instance FieldValue_eq_dec : EqDecision FieldValue.
Proof. solve_decision. Defined.
#[global] Instance Message_eq_dec : EqDecision Message.
Proof. solve_decision. Defined.
#[global] Instance Entry_eq_dec : EqDecision Entry.
Proof. solve_decision. Defined.

(** [logrus.WithField], [WithFields] and [WithError] on the data of an entry. *)
Definition WithField (data : gmap string FieldValue) (k : string) (v : FieldValue)
  : gmap string FieldValue := <[k := v]> data.

Definition WithFields (data : gmap string FieldValue) (kvs : list (string * FieldValue))
  : gmap string FieldValue :=
  fold_left (fun d kv => <[kv.1 := kv.2]> d) kvs data.

Definition WithError (data : gmap string FieldValue) (err : string)
  : gmap string FieldValue := <["error" := FError err]> data.

(** ** The logging monad *)

Definition Log (A : Type) : Type := (A * list Entry)%type.

Definition ret {A} (a : A) : Log A := (a, []).

Definition bind {A B} (m : Log A) (f : A -> Log B) : Log B :=
  let '(a, out1) := m in
  let '(b, out2) := f a in
  (b, out1 ++ out2).

Definition logAt (lvl : Level) (data : gmap string FieldValue) (msg : Message) : Log unit :=
  (tt, [mkEntry lvl data msg]).

Notation "x <- m ;; k" := (bind m (fun x => k))
  (at level 100, m at next level, right associativity).
Notation "m ;;; k" := (bind m (fun _ => k))
  (at level 100, right associativity).

(** [for _, x := range xs { s = body s x }] *)
Fixpoint forEach {A St} (body : St -> A -> Log St) (xs : list A) (s : St) : Log St :=
  match xs with
  | [] => ret s
  | x :: xs' => s' <- body s x ;; forEach body xs' s'
  end.

(** [for i, x := range xs { s = body i s x }], counting from [i]. *)
Fixpoint forEachFrom {A St} (body : nat -> St -> A -> Log St) (i : nat) (xs : list A)
    (s : St) : Log St :=
  match xs with
  | [] => ret s
  | x :: xs' => s' <- body i s x ;; forEachFrom body (S i) xs' s'
  end.

(** ** Data of the plugin configuration and of the inventory *)

(** [prowv1.DefaultClusterAlias] *)
Definition DefaultClusterAlias : string := "default".

(** The fields of [plugins.ConfigMapSpec] that the validator reads. *)
Record ConfigMapSpec := mkConfigMapSpec {
  Name : string;
  GZIP : option bool;
  Clusters : gmap string (list string)
}.

Record pathWithConfig := mkPathWithConfig {
  path : string;
  configMap : string
}.

(** The canonical job-configuration root the gzip rule is checked against. *)
Definition jobConfigRoot : string := "ci-operator/jobs".

(** ** The partition check: body of the glob loop (main.go l.126-156) *)

Record GlobLoop := mkGlobLoop {
  foundFailures : bool;
  matchesAny : bool;
  matchedMap : string
}.

Definition setFound (st : GlobLoop) : GlobLoop :=
  mkGlobLoop true (matchesAny st) (matchedMap st).

(** [updateConfig.GZIP == nil || !*updateConfig.GZIP] *)
Definition gzipOff (c : ConfigMapSpec) : bool :=
  match GZIP c with
  | None => true
  | Some b => negb b
  end.

(** [_, hasDefaultCluster := updateConfig.Clusters[prowv1.DefaultClusterAlias]] *)
Definition hasDefaultCluster (c : ConfigMapSpec) : bool :=
  match Clusters c !! DefaultClusterAlias with
  | Some _ => true
  | None => false
  end.

(** ** The entries the partition check can log for a path and a glob *)

Definition sourceLogger (p : string) : gmap string FieldValue :=
  WithField ∅ "source-file" (FString p).

Definition globLogger (p glob : string) : gmap string FieldValue :=
  WithField (sourceLogger p) "glob" (FString glob).

Definition defaultClusterFailure (p : string) : Entry :=
  mkEntry ErrorLevel (sourceLogger p) (MsgDefaultCluster DefaultClusterAlias).

Definition globWarning (p glob err : string) : Entry :=
  mkEntry WarnLevel (WithError (globLogger p glob) err) MsgGlobMatchFailed.

Definition jobConfigCheckFailure (p glob err : string) : Entry :=
  mkEntry ErrorLevel (WithError (globLogger p glob) err) MsgJobConfigCheckFailed.

Definition gzipFailure (p glob : string) : Entry :=
  mkEntry ErrorLevel (globLogger p glob) MsgGzipRequired.

Definition uniquenessFailure (p glob matched expected : string) : Entry :=
  mkEntry ErrorLevel (globLogger p glob) (MsgMultipleConfigMaps matched expected).

Definition mismatchFailure (p glob got expected : string) : Entry :=
  mkEntry ErrorLevel (globLogger p glob) (MsgUnexpectedConfigMap got expected).

Definition coverageFailure (p : string) : Entry :=
  mkEntry ErrorLevel (sourceLogger p) MsgNoAutoUpdatingConfig.

(** A validation failure is an entry logged at error level. *)
Definition isFailure (e : Entry) : bool :=
  match entryLevel e with
  | ErrorLevel => true
  | _ => false
  end.

Section Partition.

(** [zglob.Match pattern name], an external library: the matched flag and
    the error, as the Go call returns them. *)
Variable zglob_Match : string -> string -> bool * option string.

Definition checkGlob (logger : gmap string FieldValue) (pathToCheck : pathWithConfig)
    (st : GlobLoop) (kv : string * ConfigMapSpec) : Log GlobLoop :=
  let '(glob, updateConfig) := kv in
  st <- (if hasDefaultCluster updateConfig
         then logAt ErrorLevel logger (MsgDefaultCluster DefaultClusterAlias) ;;;
              ret (setFound st)
         else ret st) ;;
  let globLogger := WithField logger "glob" (FString glob) in
  let '(matches, matchErr) := zglob_Match glob (path pathToCheck) in
  (match matchErr with
   | Some e => logAt WarnLevel (WithError globLogger e) MsgGlobMatchFailed
   | None => ret tt
   end) ;;;
  st <- (match zglob_Match glob jobConfigRoot with
         | (_, Some err) =>
             logAt ErrorLevel (WithError globLogger err) MsgJobConfigCheckFailed ;;;
             ret (setFound st)
         | (jobConfigMatch, None) =>
             if jobConfigMatch && gzipOff updateConfig
             then logAt ErrorLevel globLogger MsgGzipRequired ;;; ret (setFound st)
             else ret st
         end) ;;
  if matches then
    st <- (if matchesAny st
           then logAt ErrorLevel globLogger
                  (MsgMultipleConfigMaps (matchedMap st) (configMap pathToCheck)) ;;;
                ret (setFound st)
           else ret st) ;;
    st <- (if negb (String.eqb (Name updateConfig) (configMap pathToCheck))
           then logAt ErrorLevel globLogger
                  (MsgUnexpectedConfigMap (Name updateConfig) (configMap pathToCheck)) ;;;
                ret (setFound st)
           else ret st) ;;
    ret (mkGlobLoop (foundFailures st) true (configMap pathToCheck))
  else ret st.

(** One iteration of the path loop (main.go l.122-161).  [maps] is
    [pcfg.ConfigUpdater.Maps] in the order in which this [range] visits it. *)
Definition checkPath (maps : list (string * ConfigMapSpec)) (found : bool)
    (pathToCheck : pathWithConfig) : Log bool :=
  let logger := WithField ∅ "source-file" (FString (path pathToCheck)) in
  st <- forEach (checkGlob logger pathToCheck) maps (mkGlobLoop found false "") ;;
  if negb (matchesAny st)
  then logAt ErrorLevel logger MsgNoAutoUpdatingConfig ;;; ret true
  else ret (foundFailures st).

(** The path loop.  Go does not fix the iteration order of a map and may
    change it from one [range] to the next: [rangeMaps i] is the order
    used by the [i]-th iteration of the path loop. *)
Definition checkPaths (rangeMaps : nat -> list (string * ConfigMapSpec))
    (pathsToCheck : list pathWithConfig) (found : bool) : Log bool :=
  forEachFrom (fun i found p => checkPath (rangeMaps i) found p) 0 pathsToCheck found.

(** What the program takes as "the glob matches the name": the flag
    [zglob.Match] returns. *)
Definition matches (glob name : string) : bool := (zglob_Match glob name).1.

(** The entries one visit of a rule logs whatever the loop has seen
    before: first the checks of the rule itself (default alias, match
    error, job-configuration root), last the mismatch of bundle names. *)
Definition ruleChecks (p : pathWithConfig) (kv : string * ConfigMapSpec) : list Entry :=
  (if hasDefaultCluster kv.2 then [defaultClusterFailure (path p)] else []) ++
  (match (zglob_Match kv.1 (path p)).2 with
   | Some e => [globWarning (path p) kv.1 e]
   | None => []
   end) ++
  (match (zglob_Match kv.1 jobConfigRoot).2 with
   | Some err => [jobConfigCheckFailure (path p) kv.1 err]
   | None =>
       if (zglob_Match kv.1 jobConfigRoot).1 && gzipOff kv.2
       then [gzipFailure (path p) kv.1] else []
   end).

Definition mismatchEntries (p : pathWithConfig) (kv : string * ConfigMapSpec) : list Entry :=
  if matches kv.1 (path p) && negb (String.eqb (Name kv.2) (configMap p))
  then [mismatchFailure (path p) kv.1 (Name kv.2) (configMap p)] else [].

Definition ruleEntries (p : pathWithConfig) (kv : string * ConfigMapSpec) : list Entry :=
  ruleChecks p kv ++ mismatchEntries p kv.

(** The number of rules of [maps] that match the path. *)
Definition matchCount (p : pathWithConfig) (maps : list (string * ConfigMapSpec)) : nat :=
  length (filter (fun kv => matches kv.1 (path p) = true) maps).

(** The output of one iteration of the path loop with the glob of the
    uniqueness failures left out, in an order of its own: the entries of
    each rule, a uniqueness failure for every matching rule but one, the
    coverage failure when no rule matches. *)
Definition pathEntries (p : pathWithConfig) (maps : list (string * ConfigMapSpec))
  : list Entry :=
  flat_map (ruleEntries p) maps ++
  replicate (matchCount p maps - 1)
    (mkEntry ErrorLevel (sourceLogger (path p))
       (MsgMultipleConfigMaps (configMap p) (configMap p))) ++
  (if existsb (fun kv => matches kv.1 (path p)) maps then []
   else [coverageFailure (path p)]).

End Partition.

(** ** The matcher of the library, for the examples

    [zglob.Match] is not code of this repository and the properties below
    hold for any matcher.  To run the checker on concrete inputs the
    matcher of the library is written out here after package
    [github.com/mattn/go-zglob] (v0.0.1, on Unix): a pattern without [*] is
    compared with the name as it is; otherwise the pattern is cleaned as a
    path and read as a regular expression in which the three characters
    [**/] stand for [(.*/)?], a [*] for [[^/]*] and any other character for
    itself, and a name no longer than the directory in front of the first
    [*] does not match.  The library returns no error. *)

(** [strings.Split s "/"] *)
Fixpoint splitSlash (s : string) : list string :=
  match s with
  | EmptyString => [EmptyString]
  | String c s' =>
      if Ascii.eqb c "/" then EmptyString :: splitSlash s'
      else match splitSlash s' with
           | segment :: segments => String c segment :: segments
           | [] => [String c EmptyString]
           end
  end.

(** [path.Clean]: the elements of a path without the empty ones and the
    dots, a [..] taking back the element before it. *)
Fixpoint cleanElements (rooted : bool) (elements stack : list string) : list string :=
  match elements with
  | [] => rev stack
  | element :: elements' =>
      if String.eqb element "" || String.eqb element "." then
        cleanElements rooted elements' stack
      else if String.eqb element ".." then
        match stack with
        | top :: rest =>
            if String.eqb top ".." then cleanElements rooted elements' (element :: stack)
            else cleanElements rooted elements' rest
        | [] =>
            if rooted then cleanElements rooted elements' stack
            else cleanElements rooted elements' (element :: stack)
        end
      else cleanElements rooted elements' (element :: stack)
  end.

Definition Clean (p : string) : string :=
  if String.eqb p "" then "." else
  let rooted := String.prefix "/" p in
  let body := String.concat "/" (cleanElements rooted (splitSlash p) []) in
  let out := if rooted then "/" +:+ body else body in
  if String.eqb out "" then "." else out.

(** [path.Join a b] *)
Definition Join (a b : string) : string :=
  if String.eqb a "" then (if String.eqb b "" then "" else Clean b)
  else Clean (a +:+ "/" +:+ b).

Fixpoint hasStar (s : string) : bool :=
  match s with
  | EmptyString => false
  | String c s' => Ascii.eqb c "*" || hasStar s'
  end.

(** The elements the library takes from the environment: [$NAME] and
    [$(NAME)], a letter followed by letters, digits and underscores. *)
Definition isLetter (c : ascii) : bool :=
  let n := nat_of_ascii c in
  ((65 <=? n)%nat && (n <=? 90)%nat) || ((97 <=? n)%nat && (n <=? 122)%nat).

Definition isWordChar (c : ascii) : bool :=
  let n := nat_of_ascii c in
  isLetter c || ((48 <=? n)%nat && (n <=? 57)%nat) || Ascii.eqb c "_".

Fixpoint allWordChars (s : string) : bool :=
  match s with
  | EmptyString => true
  | String c s' => isWordChar c && allWordChars s'
  end.

Definition isEnvName (s : string) : bool :=
  match s with
  | String c (String d s') => isLetter c && isWordChar d && allWordChars s'
  | _ => false
  end.

Definition isEnvRef (element : string) : bool :=
  match element with
  | String "$" rest =>
      isEnvName rest ||
      match rest with
      | String "(" inner =>
          let n := String.length inner in
          (1 <=? n)%nat && String.eqb (String.substring (n - 1)%nat 1 inner) ")" &&
          isEnvName (String.substring 0 (n - 1)%nat inner)
      | _ => false
      end
  | _ => false
  end.

Definition doubleQuote : string := String (Ascii.ascii_of_nat 34) EmptyString.

(** [strings.Trim s cutset] *)
Fixpoint inCutset (c : ascii) (cutset : string) : bool :=
  match cutset with
  | EmptyString => false
  | String d cutset' => Ascii.eqb c d || inCutset c cutset'
  end.

Fixpoint trimLeft (cutset s : string) : string :=
  match s with
  | EmptyString => EmptyString
  | String c s' => if inCutset c cutset then trimLeft cutset s' else s
  end.

Fixpoint reverse (s acc : string) : string :=
  match s with
  | EmptyString => acc
  | String c s' => reverse s' (String c acc)
  end.

Definition Trim (s cutset : string) : string :=
  reverse (trimLeft cutset (reverse (trimLeft cutset s) "")) "".

(** The loop of the library over the elements of the pattern: the mask
    joined so far and the directory in front of the first element with a
    [*] (empty while there is none). *)
Fixpoint scanPattern (getenv : string -> string) (first : bool) (elements : list string)
    (globmask root : string) : string * string :=
  match elements with
  | [] => (globmask, root)
  | element :: elements' =>
      let root' :=
        if String.eqb root "" && hasStar element
        then (if String.eqb globmask "" then "." else globmask)
        else root in
      let element1 :=
        if first && String.eqb element "~" then getenv "HOME" else element in
      let element2 :=
        if isEnvRef element1
        then Trim (Trim (getenv (String.substring 1 (String.length element1) element1))
                        "()") doubleQuote
        else element1 in
      let joined := Join globmask element2 in
      let globmask' := if first && String.eqb joined "" then "/" else joined in
      scanPattern getenv false elements' globmask' root'
  end.

(** The regular expression of a mask, as a sequence of pieces. *)
Inductive MaskPiece :=
| AnyDirectories
| AnyName
| Exactly (c : ascii).

Fixpoint maskPieces (mask : string) : list MaskPiece :=
  match mask with
  | EmptyString => []
  | String "*" (String "*" (String "/" mask')) => AnyDirectories :: maskPieces mask'
  | String "*" mask' => AnyName :: maskPieces mask'
  | String c mask' => Exactly c :: maskPieces mask'
  end.

(** Whether the whole name is matched by the pieces.  [AnyName] takes
    characters other than [/]; [AnyDirectories] takes nothing, or any
    characters other than a newline up to and with a [/]. *)
Fixpoint matchPieces (pieces : list MaskPiece) : string -> bool :=
  match pieces with
  | [] => fun name => match name with EmptyString => true | _ => false end
  | AnyName :: pieces' =>
      fix anyName (name : string) : bool :=
        matchPieces pieces' name ||
        match name with
        | EmptyString => false
        | String c name' => if Ascii.eqb c "/" then false else anyName name'
        end
  | AnyDirectories :: pieces' =>
      fun name =>
        matchPieces pieces' name ||
        (fix anyDirectories (name : string) : bool :=
           match name with
           | EmptyString => false
           | String c name' =>
               (Ascii.eqb c "/" && matchPieces pieces' name') ||
               (negb (Ascii.eqb c "010") && anyDirectories name')
           end) name
  | Exactly c :: pieces' =>
      fun name =>
        match name with
        | EmptyString => false
        | String d name' => Ascii.eqb c d && matchPieces pieces' name'
        end
  end.

(** The expression of the files: a mask that ends in [/] takes one more
    name. *)
Definition fileMask (mask : string) : list MaskPiece :=
  let pieces := maskPieces mask in
  match last pieces with
  | Some (Exactly "/") => pieces ++ [AnyName]
  | _ => pieces
  end.

Definition zglobMatches (getenv : string -> string) (pattern name : string) : bool :=
  let '(globmask, root) := scanPattern getenv true (splitSlash pattern) "" "" in
  if String.eqb root "" then String.eqb pattern name
  else
    let mask := Clean (if String.eqb globmask "" then "." else globmask) in
    if String.eqb name "." || (String.length name <=? String.length (Clean root))%nat
    then false
    else matchPieces (fileMask mask) name.

(** The matcher of the examples: the library in an empty environment. *)
Definition sampleMatch (pattern name : string) : bool * option string :=
  (zglobMatches (fun _ => "") pattern name, None).

(** ** Pod specifications and job configurations (the fields read) *)

Record ConfigMapKeySelector := mkConfigMapKeySelector {
  ConfigMapKeyRef_Name : string;
  ConfigMapKeyRef_Key : string
}.

Record EnvVarSource := mkEnvVarSource {
  ConfigMapKeyRef : option ConfigMapKeySelector
}.

Record EnvVar := mkEnvVar {
  EnvVar_Name : string;
  ValueFrom : option EnvVarSource
}.

Record Container := mkContainer {
  Env : list EnvVar
}.

Record PodSpec := mkPodSpec {
  InitContainers : list Container;
  Containers : list Container
}.

(** A presubmit, postsubmit or periodic: its [JobBase]. *)
Record JobBase := mkJobBase {
  JobBase_Name : string;
  Spec : option PodSpec
}.

(** [prowconfig.JobConfig].  The two maps from repository to jobs are given
    as the sequence in which [range] visits them. *)
Record JobConfig := mkJobConfig {
  PresubmitsStatic : list (string * list JobBase);
  PostsubmitsStatic : list (string * list JobBase);
  Periodics : list JobBase
}.

(** ** The injection check: [checkSpec] (main.go l.168-196) *)

(** [env.Name == "CONFIG_SPEC" && env.ValueFrom != nil &&
     env.ValueFrom.ConfigMapKeyRef != nil], with the reference when it holds. *)
Definition configSpecRef (env : EnvVar) : option ConfigMapKeySelector :=
  if String.eqb (EnvVar_Name env) "CONFIG_SPEC" then
    match ValueFrom env with
    | Some source => ConfigMapKeyRef source
    | None => None
    end
  else None.

Definition specLogger (relPath name : string) (containerIndex : nat) (key : string)
  : gmap string FieldValue :=
  WithFields ∅ [("source-file", FString relPath); ("job", FString name);
                ("container", FInt (Z.of_nat containerIndex)); ("key", FString key)].

Definition unknownKeyFailure (relPath name : string) (containerIndex : nat) (key : string)
  : Entry :=
  mkEntry ErrorLevel (specLogger relPath name containerIndex key) MsgUnknownKey.

Definition wrongShardFailure (relPath name : string) (containerIndex : nat)
    (key got expected : string) : Entry :=
  mkEntry ErrorLevel
    (WithFields (specLogger relPath name containerIndex key)
       [("got", FString got); ("expected", FString expected)])
    MsgInvalidShard.

Section Injection.

(** [config.Info] of package [pkg/config] with its method
    [ConfigMapName], which derives the bundle of a configuration file
    from its location. *)
Variable Info : Type.
Variable Info_ConfigMapName : Info -> string.

(** Body of the loop over the environment of one container. *)
Definition checkEnv (relPath name : string) (configInfos : gmap string Info)
    (containerIndex : nat) (found : bool) (env : EnvVar) : Log bool :=
  match configSpecRef env with
  | Some ref =>
      let logger := specLogger relPath name containerIndex (ConfigMapKeyRef_Key ref) in
      match configInfos !! ConfigMapKeyRef_Key ref with
      | None => logAt ErrorLevel logger MsgUnknownKey ;;; ret true
      | Some configInfo =>
          if negb (String.eqb (ConfigMapKeyRef_Name ref) (Info_ConfigMapName configInfo))
          then logAt ErrorLevel
                 (WithFields logger
                    [("got", FString (ConfigMapKeyRef_Name ref));
                     ("expected", FString (Info_ConfigMapName configInfo))])
                 MsgInvalidShard ;;;
               ret true
          else ret found
      end
  | None => ret found
  end.

Definition checkSpec (spec : PodSpec) (relPath name : string)
    (configInfos : gmap string Info) : Log bool :=
  forEachFrom
    (fun containerIndex found container =>
       forEach (checkEnv relPath name configInfos containerIndex) (Env container) found)
    0 (Containers spec) false.

End Injection.

(** ** The checks of [main] (main.go l.75-165) *)

Section MainChecks.

Variable zglob_Match : string -> string -> bool * option string.

(** [config.Info] and [jobconfig.Info] with the methods used, and
    [filepath.Rel] (its error is dropped by the program). *)
Variable Info : Type.
Variable Info_Filename : Info -> string.
Variable Info_Basename : Info -> string.
Variable Info_ConfigMapName : Info -> string.
Variable JobInfo : Type.
Variable JobInfo_Filename : JobInfo -> string.
Variable JobInfo_ConfigMapName : JobInfo -> string.
Variable filepath_Rel : string -> string -> string.

Variable releaseRepoDir : string.

(** The callback given to [config.OperateOnCIOperatorConfigDir] (l.77-83);
    the state is [pathsToCheck] and [configInfos]. *)
Definition ciopCallback (st : list pathWithConfig * gmap string Info) (info : Info)
  : Log (list pathWithConfig * gmap string Info) :=
  let relPath := filepath_Rel releaseRepoDir (Info_Filename info) in
  ret (st.1 ++ [mkPathWithConfig relPath (Info_ConfigMapName info)],
       <[Info_Basename info := info]> st.2).

(** [if job.Spec != nil { if checkSpec(...) { foundFailures = true } }] *)
Definition checkJob (relPath : string) (configInfos : gmap string Info)
    (found : bool) (job : JobBase) : Log bool :=
  match Spec job with
  | Some spec =>
      foundFailure <- checkSpec Info Info_ConfigMapName spec relPath
                        (JobBase_Name job) configInfos ;;
      if foundFailure then ret true else ret found
  | None => ret found
  end.

(** The callback given to [jobconfig.OperateOnJobConfigDir] (l.88-117);
    the state is [pathsToCheck] and [foundFailures]. *)
Definition jobCallback (configInfos : gmap string Info)
    (st : list pathWithConfig * bool) (file : JobConfig * JobInfo)
  : Log (list pathWithConfig * bool) :=
  let relPath := filepath_Rel releaseRepoDir (JobInfo_Filename file.2) in
  let pathsToCheck :=
    st.1 ++ [mkPathWithConfig relPath (JobInfo_ConfigMapName file.2)] in
  found <- forEach (fun found presubmits =>
                      forEach (checkJob relPath configInfos) presubmits.2 found)
             (PresubmitsStatic file.1) st.2 ;;
  found <- forEach (fun found postsubmits =>
                      forEach (checkJob relPath configInfos) postsubmits.2 found)
             (PostsubmitsStatic file.1) found ;;
  found <- forEach (checkJob relPath configInfos) (Periodics file.1) found ;;
  ret (pathsToCheck, found).

(** What [main] does once the options are validated and the plugin
    configuration is loaded.  [ciopFiles] and [jobFiles] are the files the
    two directory walks visit, in order; a walk that fails ends the program
    before any check.  The output is the sequence of entries handed to the
    logger, which prints those its level enables (see [main] below); the
    result is [true] when the program ends in [logrus.Fatal]. *)
Definition mainChecks (rangeMaps : nat -> list (string * ConfigMapSpec))
    (ciopFiles : list Info) (jobFiles : list (JobConfig * JobInfo)) : Log bool :=
  inventory <- forEach ciopCallback ciopFiles ([], ∅) ;;
  st <- forEach (jobCallback inventory.2) jobFiles (inventory.1, false) ;;
  found <- checkPaths zglob_Match rangeMaps st.1 st.2 ;;
  if found then logAt FatalLevel ∅ MsgFoundFailures ;;; ret true else ret false.

End MainChecks.

(** ** Comparing the outputs of two runs *)

(** The final entry of a failing run. *)
Definition fatalEntry : Entry := mkEntry FatalLevel ∅ MsgFoundFailures.

(** A uniqueness failure without the glob it is attributed to; any other
    entry as it is. *)
Definition forgetGlob (e : Entry) : Entry :=
  match entryMessage e with
  | MsgMultipleConfigMaps _ _ =>
      mkEntry (entryLevel e) (delete "glob" (entryData e)) (entryMessage e)
  | _ => e
  end.

(** ** Concrete collaborators, to run the checker on examples *)

Record SampleInfo := mkSampleInfo {
  sampleFilename : string;
  sampleBasename : string;
  sampleConfigMapName : string
}.

(** [filepath.Rel] for the base directories [""] and ["."] of the examples
    and file names given relative to them. *)
Definition sampleRel (base target : string) : string := target.

(** Rule sets and files of the examples. *)
Definition bundleA : ConfigMapSpec := mkConfigMapSpec "BundleA" (Some true) ∅.
Definition bundleB : ConfigMapSpec := mkConfigMapSpec "BundleB" (Some true) ∅.

Definition oneRule : gmap string ConfigMapSpec := {[ "dir/*.yaml" := bundleA ]}.

Definition twoRules : gmap string ConfigMapSpec :=
  {[ "dir/*.yaml" := bundleA; "dir/foo.*" := bundleB ]}.

Definition defaultAliasRule : gmap string ConfigMapSpec :=
  {[ "dir/*.yaml" := mkConfigMapSpec "BundleA" (Some true) {[ "default" := ["ci"] ]} ]}.

Definition jobsRule : gmap string ConfigMapSpec :=
  {[ "ci-operator/jobs" := mkConfigMapSpec "job-config" None ∅ ]}.

Definition overlappingRules : gmap string ConfigMapSpec :=
  {[ "a*" := bundleA; "*b" := bundleA ]}.

Definition fooYaml : pathWithConfig := mkPathWithConfig "dir/foo.yaml" "BundleA".
Definition otherYaml : pathWithConfig := mkPathWithConfig "other/foo.yaml" "BundleA".

(** Every [range] in the order of the enumeration of the map. *)
Definition inMapOrder (Maps : gmap string ConfigMapSpec)
  : nat -> list (string * ConfigMapSpec) :=
  fun _ => map_to_list Maps.

Definition k1First : SampleInfo := mkSampleInfo "config/a/k1.yaml" "k1" "BundleX".
Definition k1Last : SampleInfo := mkSampleInfo "config/b/k1.yaml" "k1" "BundleY".

Definition abFile : SampleInfo := mkSampleInfo "ab" "ab.yaml" "BundleA".

Definition injectedEnv : EnvVar :=
  mkEnvVar "CONFIG_SPEC"
    (Some (mkEnvVarSource (Some (mkConfigMapKeySelector "BundleX" "k1")))).

Definition injectedSpec : PodSpec := mkPodSpec [] [mkContainer [injectedEnv]].

(** A reference under another variable name, a reference to a key no
    file has, and a consistent run: one configuration file, one job file
    with a presubmit that injects the configuration and a periodic without
    specification. *)
Definition otherEnv : EnvVar :=
  mkEnvVar "OTHER_SPEC"
    (Some (mkEnvVarSource (Some (mkConfigMapKeySelector "BundleZ" "missing")))).

Definition missingEnv : EnvVar :=
  mkEnvVar "CONFIG_SPEC"
    (Some (mkEnvVarSource (Some (mkConfigMapKeySelector "BundleY" "k2")))).

Definition fooConfig : SampleInfo := mkSampleInfo "dir/foo.yaml" "k1" "BundleA".

Definition consistentEnv : EnvVar :=
  mkEnvVar "CONFIG_SPEC"
    (Some (mkEnvVarSource (Some (mkConfigMapKeySelector "BundleA" "k1")))).

Definition jobsFile : JobConfig * SampleInfo :=
  (mkJobConfig
     [("org/repo", [mkJobBase "pre" (Some (mkPodSpec [] [mkContainer [consistentEnv]]))])]
     []
     [mkJobBase "periodic" None],
   mkSampleInfo "dir/jobs.yaml" "" "BundleA").

(** ** The options (main.go l.25-47) *)

Module Options.

Record options := mkOptions {
  releaseRepoDir : string;
  logLevel : string
}.

Section Validate.

(** [logrus.Level] and [logrus.ParseLevel], which gives a level or an
    error (kept as its text). *)
Variable LogrusLevel : Type.
Variable logrus_ParseLevel : string -> LogrusLevel + string.

(** [(o *options) Validate()]: the error returned ([None] for [nil]) and
    the level of the standard logger after the call, [level] being the one
    before it. *)
Definition Validate (o : options) (level : LogrusLevel) : option string * LogrusLevel :=
  if String.eqb (releaseRepoDir o) "" then
    (Some "required flag --release-repo-dir was unset", level)
  else
    match logrus_ParseLevel (logLevel o) with
    | inr err => (Some ("invalid --log-level: " +:+ err), level)
    | inl parsed => (None, parsed)
    end.

End Validate.

(** The defaults [Bind] declares for the two flags. *)
Definition defaults : options := mkOptions "" "info".

End Options.

(** ** The level of the logger, and [main] (main.go l.63-166) *)

(** The levels of the entries, as the numbers [logrus] gives them. *)
Definition entryRank (l : Level) : N :=
  match l with
  | FatalLevel => 1
  | ErrorLevel => 2
  | WarnLevel => 3
  end%N.

Section Program.

Variable zglob_Match : string -> string -> bool * option string.
Variable Info : Type.
Variable Info_Filename : Info -> string.
Variable Info_Basename : Info -> string.
Variable Info_ConfigMapName : Info -> string.
Variable JobInfo : Type.
Variable JobInfo_Filename : JobInfo -> string.
Variable JobInfo_ConfigMapName : JobInfo -> string.
Variable filepath_Rel : string -> string -> string.

(** [logrus.Level], [logrus.ParseLevel], and whether a logger at a level
    prints an entry of a level ([logrus.IsLevelEnabled]). *)
Variable LogrusLevel : Type.
Variable logrus_ParseLevel : string -> LogrusLevel + string.
Variable logrus_IsLevelEnabled : LogrusLevel -> Level -> bool.

(** The entries the logger prints of those handed to it. *)
Definition printed (level : LogrusLevel) (entries : list Entry) : list Entry :=
  filter (fun e => logrus_IsLevelEnabled level (entryLevel e) = true) entries.

(** [logrus.Fatalf("Invalid options: %v", err)] *)
Definition invalidOptionsEntry (err : string) : Entry :=
  mkEntry FatalLevel ∅ (MsgInvalidOptions err).

(** [main], for the options [gatherOptions] returns and the level
    [level0] the logger starts with, the plugin configuration being loaded
    and the walks being given as for [mainChecks].  [Validate] sets the
    level before any check (l.65, l.40).  The output is what the logger
    prints; the result is [true] when the program exits with status 1
    ([logrus.Fatal] exits whether the entry is printed or not). *)
Definition main (o : Options.options) (level0 : LogrusLevel)
    (rangeMaps : nat -> list (string * ConfigMapSpec))
    (ciopFiles : list Info) (jobFiles : list (JobConfig * JobInfo)) : Log bool :=
  let validated := Options.Validate LogrusLevel logrus_ParseLevel o level0 in
  match validated.1 with
  | Some err => (true, printed validated.2 [invalidOptionsEntry err])
  | None =>
      let checks :=
        mainChecks zglob_Match Info Info_Filename Info_Basename Info_ConfigMapName
          JobInfo JobInfo_Filename JobInfo_ConfigMapName filepath_Rel
          (Options.releaseRepoDir o) rangeMaps ciopFiles jobFiles in
      (checks.1, printed validated.2 checks.2)
  end.

End Program.

(** The same job file with its two maps of jobs ranged over in another
    order. *)
Definition sameJobs {JobInfo : Type} (file file' : JobConfig * JobInfo) : Prop :=
  PresubmitsStatic file.1 ≡ₚ PresubmitsStatic file'.1 /\
  PostsubmitsStatic file.1 ≡ₚ PostsubmitsStatic file'.1 /\
  Periodics file.1 = Periodics file'.1 /\
  file.2 = file'.2.

(** ** The logger of the library, for the examples

    Written out after package [github.com/sirupsen/logrus]: the seven
    levels in their order, [ParseLevel] on the names of the levels in any
    case of letters, and a logger printing the entries whose level is not
    above its own. *)

Module Logrus.

Inductive LoggerLevel :=
| PanicLevel | FatalLevel | ErrorLevel | WarnLevel | InfoLevel | DebugLevel | TraceLevel.

Definition rank (l : LoggerLevel) : N :=
  match l with
  | PanicLevel => 0
  | FatalLevel => 1
  | ErrorLevel => 2
  | WarnLevel => 3
  | InfoLevel => 4
  | DebugLevel => 5
  | TraceLevel => 6
  end%N.

Definition lowerChar (c : ascii) : ascii :=
  let n := nat_of_ascii c in
  if ((65 <=? n)%nat && (n <=? 90)%nat) then ascii_of_nat (n + 32) else c.

Fixpoint ToLower (s : string) : string :=
  match s with
  | EmptyString => EmptyString
  | String c s' => String (lowerChar c) (ToLower s')
  end.

Definition ParseLevel (lvl : string) : LoggerLevel + string :=
  let name := ToLower lvl in
  if String.eqb name "panic" then inl PanicLevel
  else if String.eqb name "fatal" then inl FatalLevel
  else if String.eqb name "error" then inl ErrorLevel
  else if String.eqb name "warn" || String.eqb name "warning" then inl WarnLevel
  else if String.eqb name "info" then inl InfoLevel
  else if String.eqb name "debug" then inl DebugLevel
  else if String.eqb name "trace" then inl TraceLevel
  else inr ("not a valid logrus Level: " +:+ doubleQuote +:+ lvl +:+ doubleQuote).

Definition IsLevelEnabled (logger : LoggerLevel) (entry : Level) : bool :=
  (entryRank entry <=? rank logger)%N.

End Logrus.

(** The program of the examples: run in the directory of the release
    repository ([--release-repo-dir .]) with the default log level, the
    logger starting at [InfoLevel] as the library has it. *)
Definition sampleMainAt (logLevel : string) :=
  main sampleMatch SampleInfo sampleFilename sampleBasename sampleConfigMapName
       SampleInfo sampleFilename sampleConfigMapName sampleRel
       Logrus.LoggerLevel Logrus.ParseLevel Logrus.IsLevelEnabled
       (Options.mkOptions "." logLevel) Logrus.InfoLevel.

Definition sampleMain := sampleMainAt "info".

(** A job file whose presubmits for two repositories both inject a
    configuration no file has, and the same file with the two repositories
    ranged over in the other order. *)
Definition missingJob (name : string) : JobBase :=
  mkJobBase name (Some (mkPodSpec [] [mkContainer [missingEnv]])).

Definition twoRepos : JobConfig * SampleInfo :=
  (mkJobConfig [("org/a", [missingJob "a"]); ("org/b", [missingJob "b"])] [] [],
   mkSampleInfo "jobs/ab" "" "BundleA").

Definition twoReposSwapped : JobConfig * SampleInfo :=
  (mkJobConfig [("org/b", [missingJob "b"]); ("org/a", [missingJob "a"])] [] [],
   mkSampleInfo "jobs/ab" "" "BundleA").

(** ** The inventory of a run *)

(** Recognising the uniqueness failures among the entries. *)
Definition isUniqueness (e : Entry) : bool :=
  match entryMessage e with
  | MsgMultipleConfigMaps _ _ => true
  | _ => false
  end.

(** All the jobs of a job configuration, in the order [mainChecks] checks them:
    presubmits, postsubmits, periodics. *)
Definition jobsOf (jobConfig : JobConfig) : list JobBase :=
  concat (map snd (PresubmitsStatic jobConfig)) ++
  concat (map snd (PostsubmitsStatic jobConfig)) ++
  Periodics jobConfig.

Section Inventory.

Variable Info : Type.
Variable Info_Filename : Info -> string.
Variable Info_Basename : Info -> string.
Variable Info_ConfigMapName : Info -> string.
Variable JobInfo : Type.
Variable JobInfo_Filename : JobInfo -> string.
Variable JobInfo_ConfigMapName : JobInfo -> string.
Variable filepath_Rel : string -> string -> string.
Variable releaseRepoDir : string.

(** The record appended to [pathsToCheck] for a configuration file and
    for a job file. *)
Definition ciopPath (info : Info) : pathWithConfig :=
  mkPathWithConfig (filepath_Rel releaseRepoDir (Info_Filename info))
                   (Info_ConfigMapName info).

Definition jobPath (info : JobInfo) : pathWithConfig :=
  mkPathWithConfig (filepath_Rel releaseRepoDir (JobInfo_Filename info))
                   (JobInfo_ConfigMapName info).

(** [configInfos] once the walk of the configuration files is over. *)
Definition configIndex (ciopFiles : list Info) : gmap string Info :=
  (forEach (ciopCallback Info Info_Filename Info_Basename Info_ConfigMapName
              filepath_Rel releaseRepoDir) ciopFiles ([], ∅)).1.2.

(** What [checkSpec] logs for a job, nothing when it has no specification;
    and for all the jobs of a job file. *)
Definition jobEntries (relPath : string) (configInfos : gmap string Info) (job : JobBase)
  : list Entry :=
  match Spec job with
  | Some spec =>
      (checkSpec Info Info_ConfigMapName spec relPath (JobBase_Name job) configInfos).2
  | None => []
  end.

Definition fileEntries (configInfos : gmap string Info) (file : JobConfig * JobInfo)
  : list Entry :=
  flat_map (jobEntries (filepath_Rel releaseRepoDir (JobInfo_Filename file.2)) configInfos)
           (jobsOf file.1).

End Inventory.

(** An injection reference is consistent with the index when its key is
    there with the bundle name of the reference. *)
Definition consistentRef {Info : Type} (Info_ConfigMapName : Info -> string)
    (configInfos : gmap string Info) (ref : ConfigMapKeySelector) : Prop :=
  exists configInfo,
    configInfos !! ConfigMapKeyRef_Key ref = Some configInfo /\
    ConfigMapKeyRef_Name ref = Info_ConfigMapName configInfo.

(** ** What a passing run certifies *)

Section Certified.

Variable zglob_Match : string -> string -> bool * option string.
Variable Maps : gmap string ConfigMapSpec.

(** The path belongs to exactly one rule of the rule set, and the bundle
    of that rule is the one expected for the path. *)
Definition assigned (p : pathWithConfig) : Prop :=
  exists glob updateConfig,
    Maps !! glob = Some updateConfig /\
    matches zglob_Match glob (path p) = true /\
    Name updateConfig = configMap p /\
    forall glob' updateConfig',
      Maps !! glob' = Some updateConfig' ->
      matches zglob_Match glob' (path p) = true -> glob' = glob.

(** The rule passes the checks that do not depend on the path: no default
    cluster alias, no error of its pattern against the job-configuration
    root, gzip set to true when the pattern matches that root. *)
Definition acceptedRule (glob : string) (updateConfig : ConfigMapSpec) : Prop :=
  hasDefaultCluster updateConfig = false /\
  (zglob_Match glob jobConfigRoot).2 = None /\
  ((zglob_Match glob jobConfigRoot).1 = true -> GZIP updateConfig = Some true).

End Certified.

(** * Properties *)

(** ** The logging monad: equations *)

Lemma fst_bind {A B} (m : Log A) (f : A -> Log B) :
  (bind m f).1 = (f m.1).1.
Proof. unfold bind. destruct m as [a o]. simpl. destruct (f a). reflexivity. Qed.

Lemma snd_bind {A B} (m : Log A) (f : A -> Log B) :
  (bind m f).2 = m.2 ++ (f m.1).2.
Proof. unfold bind. destruct m as [a o]. simpl. destruct (f a). reflexivity. Qed.

Lemma forEach_cons {A St} (body : St -> A -> Log St) x xs s :
  forEach body (x :: xs) s = bind (body s x) (forEach body xs).
Proof. reflexivity. Qed.

Lemma forEach_app_fst {A St} (body : St -> A -> Log St) xs ys s :
  (forEach body (xs ++ ys) s).1 = (forEach body ys (forEach body xs s).1).1.
Proof.
  revert s. induction xs as [|x xs IH]; intros s; simpl; [reflexivity|].
  rewrite !fst_bind. apply IH.
Qed.

Lemma forEach_app_snd {A St} (body : St -> A -> Log St) xs ys s :
  (forEach body (xs ++ ys) s).2 =
  (forEach body xs s).2 ++ (forEach body ys (forEach body xs s).1).2.
Proof.
  revert s. induction xs as [|x xs IH]; intros s; simpl; [reflexivity|].
  rewrite !snd_bind, !fst_bind, IH, app_assoc. reflexivity.
Qed.

(** An entry is in the output of a loop exactly when one iteration emits
    it, from the state the loop has reached there. *)
Lemma elem_of_forEach {A St} (body : St -> A -> Log St) xs s e :
  e ∈ (forEach body xs s).2 <->
  exists pre x post, xs = pre ++ x :: post /\ e ∈ (body (forEach body pre s).1 x).2.
Proof.
  revert s. induction xs as [|x xs IH]; intros s.
  - simpl. split.
    + intros H. inversion H.
    + intros (pre & y & post & Heq & _). destruct pre; discriminate.
  - rewrite forEach_cons, snd_bind, elem_of_app, IH. split.
    + intros [H | (pre & y & post & -> & H)].
      * exists [], x, xs. split; [reflexivity | exact H].
      * exists (x :: pre), y, post. split; [reflexivity|].
        simpl. rewrite fst_bind. exact H.
    + intros (pre & y & post & Heq & H). destruct pre as [|z pre].
      * simpl in Heq. injection Heq as <- <-. left. exact H.
      * simpl in Heq. injection Heq as <- ->. right.
        exists pre, y, post. split; [reflexivity|].
        simpl in H. rewrite fst_bind in H. exact H.
Qed.

(** ** Loggers and entries *)

Lemma sourceLogger_inj p q : sourceLogger p = sourceLogger q -> p = q.
Proof.
  unfold sourceLogger, WithField. intros H.
  apply (f_equal (fun m => m !! "source-file")) in H.
  rewrite !lookup_insert_eq in H. congruence.
Qed.

Lemma globLogger_inj p g q h : globLogger p g = globLogger q h -> p = q /\ g = h.
Proof.
  unfold globLogger, sourceLogger, WithField. intros H. split.
  - apply (f_equal (fun m => m !! "source-file")) in H.
    rewrite !(lookup_insert_ne _ "glob" "source-file") in H by done.
    rewrite !lookup_insert_eq in H. congruence.
  - apply (f_equal (fun m => m !! "glob")) in H.
    rewrite !lookup_insert_eq in H. congruence.
Qed.

Lemma globLogger_glob p g : globLogger p g !! "glob" = Some (FString g).
Proof. unfold globLogger, WithField. apply lookup_insert_eq. Qed.

Lemma sourceLogger_glob p : sourceLogger p !! "glob" = None.
Proof.
  unfold sourceLogger, WithField.
  rewrite lookup_insert_ne by done. apply lookup_empty.
Qed.

(** ** The glob loop *)

Section PartitionFacts.

Variable zglob_Match : string -> string -> bool * option string.

Abbreviation checkGlob := (checkGlob zglob_Match).
Abbreviation checkPath := (checkPath zglob_Match).
Abbreviation checkPaths := (checkPaths zglob_Match).
Abbreviation matches := (matches zglob_Match).
Abbreviation ruleChecks := (ruleChecks zglob_Match).
Abbreviation mismatchEntries := (mismatchEntries zglob_Match).
Abbreviation ruleEntries := (ruleEntries zglob_Match).
Abbreviation matchCount := (matchCount zglob_Match).

Ltac glob_cases st kv :=
  destruct st as [found any mm]; destruct kv as [glob updateConfig];
  unfold checkGlob, ruleChecks, mismatchEntries, matches,
    uniquenessFailure, sourceLogger, globLogger; simpl;
  destruct (hasDefaultCluster updateConfig);
  destruct (zglob_Match glob jobConfigRoot) as [root [?|]];
  destruct (zglob_Match glob (path _)) as [m [?|]];
  try destruct root; try destruct (gzipOff updateConfig);
  destruct m; destruct any;
  try destruct (String.eqb (Name updateConfig) (configMap _));
  simpl.

Lemma checkGlob_matchesAny p st kv :
  matchesAny (checkGlob (sourceLogger (path p)) p st kv).1 =
  matchesAny st || matches kv.1 (path p).
Proof. glob_cases st kv; reflexivity. Qed.

Lemma checkGlob_matchedMap p st kv :
  matchedMap (checkGlob (sourceLogger (path p)) p st kv).1 =
  if matches kv.1 (path p) then configMap p else matchedMap st.
Proof. glob_cases st kv; reflexivity. Qed.

Lemma checkGlob_foundFailures p st kv :
  foundFailures (checkGlob (sourceLogger (path p)) p st kv).1 =
  foundFailures st ||
  existsb isFailure (checkGlob (sourceLogger (path p)) p st kv).2.
Proof. glob_cases st kv; rewrite ?orb_true_r, ?orb_false_r; reflexivity. Qed.

(** The output of one visit: the checks of the rule, the uniqueness
    failure when the path matched an earlier rule, the mismatch. *)
Lemma checkGlob_output p st kv :
  (checkGlob (sourceLogger (path p)) p st kv).2 =
  ruleChecks p kv ++
  (if matches kv.1 (path p) && matchesAny st
   then [uniquenessFailure (path p) kv.1 (matchedMap st) (configMap p)] else []) ++
  mismatchEntries p kv.
Proof. glob_cases st kv; reflexivity. Qed.

Lemma elem_of_checkGlob p st kv e :
  e ∈ (checkGlob (sourceLogger (path p)) p st kv).2 <->
  e ∈ ruleEntries p kv \/
  (matches kv.1 (path p) = true /\ matchesAny st = true /\
   e = uniquenessFailure (path p) kv.1 (matchedMap st) (configMap p)).
Proof.
  rewrite checkGlob_output. unfold ruleEntries. rewrite !elem_of_app.
  destruct (matches kv.1 (path p)), (matchesAny st); simpl;
    rewrite ?elem_of_cons, ?elem_of_nil; naive_solver.
Qed.

Lemma elem_of_ruleChecks p kv e :
  e ∈ ruleChecks p kv <->
  (hasDefaultCluster kv.2 = true /\ e = defaultClusterFailure (path p)) \/
  (exists err, (zglob_Match kv.1 (path p)).2 = Some err /\
     e = globWarning (path p) kv.1 err) \/
  (exists err, (zglob_Match kv.1 jobConfigRoot).2 = Some err /\
     e = jobConfigCheckFailure (path p) kv.1 err) \/
  (zglob_Match kv.1 jobConfigRoot = (true, None) /\ gzipOff kv.2 = true /\
     e = gzipFailure (path p) kv.1).
Proof.
  unfold ruleChecks. rewrite !elem_of_app.
  assert (Ha : e ∈ (if hasDefaultCluster kv.2
                    then [defaultClusterFailure (path p)] else []) <->
               hasDefaultCluster kv.2 = true /\ e = defaultClusterFailure (path p)).
  { destruct (hasDefaultCluster kv.2);
      rewrite ?elem_of_cons, ?elem_of_nil; naive_solver. }
  assert (Hw : e ∈ match (zglob_Match kv.1 (path p)).2 with
                   | Some err => [globWarning (path p) kv.1 err]
                   | None => []
                   end <->
               exists err, (zglob_Match kv.1 (path p)).2 = Some err /\
                 e = globWarning (path p) kv.1 err).
  { destruct (zglob_Match kv.1 (path p)).2;
      rewrite ?elem_of_cons, ?elem_of_nil; naive_solver. }
  rewrite Ha, Hw. clear Ha Hw.
  destruct (zglob_Match kv.1 jobConfigRoot) as [root [err|]]; simpl;
    [| destruct root; destruct (gzipOff kv.2); simpl];
    rewrite ?elem_of_cons, ?elem_of_nil; naive_solver.
Qed.

Lemma elem_of_mismatchEntries p kv e :
  e ∈ mismatchEntries p kv <->
  matches kv.1 (path p) = true /\ Name kv.2 <> configMap p /\
  e = mismatchFailure (path p) kv.1 (Name kv.2) (configMap p).
Proof.
  unfold mismatchEntries.
  destruct (matches kv.1 (path p));
    destruct (String.eqb_spec (Name kv.2) (configMap p)); simpl;
    rewrite ?elem_of_cons, ?elem_of_nil; naive_solver.
Qed.

Lemma elem_of_ruleEntries p kv e :
  e ∈ ruleEntries p kv <->
  (hasDefaultCluster kv.2 = true /\ e = defaultClusterFailure (path p)) \/
  (exists err, (zglob_Match kv.1 (path p)).2 = Some err /\
     e = globWarning (path p) kv.1 err) \/
  (exists err, (zglob_Match kv.1 jobConfigRoot).2 = Some err /\
     e = jobConfigCheckFailure (path p) kv.1 err) \/
  (zglob_Match kv.1 jobConfigRoot = (true, None) /\ gzipOff kv.2 = true /\
     e = gzipFailure (path p) kv.1) \/
  (matches kv.1 (path p) = true /\ Name kv.2 <> configMap p /\
     e = mismatchFailure (path p) kv.1 (Name kv.2) (configMap p)).
Proof.
  unfold ruleEntries.
  rewrite elem_of_app, elem_of_ruleChecks, elem_of_mismatchEntries. tauto.
Qed.

(** The loop over the rules, from any state. *)
Lemma globLoop_matchesAny p maps st :
  matchesAny (forEach (checkGlob (sourceLogger (path p)) p) maps st).1 =
  matchesAny st || existsb (fun kv => matches kv.1 (path p)) maps.
Proof.
  revert st. induction maps as [|kv maps IH]; intros st; simpl.
  - rewrite orb_false_r. reflexivity.
  - rewrite fst_bind, IH, checkGlob_matchesAny, orb_assoc. reflexivity.
Qed.

Lemma globLoop_matchedMap p maps st :
  (matchesAny st = true -> matchedMap st = configMap p) ->
  matchesAny (forEach (checkGlob (sourceLogger (path p)) p) maps st).1 = true ->
  matchedMap (forEach (checkGlob (sourceLogger (path p)) p) maps st).1 = configMap p.
Proof.
  revert st. induction maps as [|kv maps IH]; intros st Hst; simpl.
  - exact Hst.
  - rewrite fst_bind. apply IH.
    rewrite checkGlob_matchesAny, checkGlob_matchedMap.
    destruct (matches kv.1 (path p)); [reflexivity|].
    rewrite orb_false_r. exact Hst.
Qed.

Lemma globLoop_foundFailures p maps st :
  foundFailures (forEach (checkGlob (sourceLogger (path p)) p) maps st).1 =
  foundFailures st ||
  existsb isFailure (forEach (checkGlob (sourceLogger (path p)) p) maps st).2.
Proof.
  revert st. induction maps as [|kv maps IH]; intros st; simpl.
  - rewrite orb_false_r. reflexivity.
  - rewrite fst_bind, snd_bind, IH, checkGlob_foundFailures, existsb_app, orb_assoc.
    reflexivity.
Qed.

Lemma elem_of_checkPath maps found p e :
  e ∈ (checkPath maps found p).2 <->
  (exists kv, kv ∈ maps /\ e ∈ ruleEntries p kv) \/
  (exists pre kv post, maps = pre ++ kv :: post /\
     matches kv.1 (path p) = true /\
     existsb (fun kv' => matches kv'.1 (path p)) pre = true /\
     e = uniquenessFailure (path p) kv.1 (configMap p) (configMap p)) \/
  (existsb (fun kv => matches kv.1 (path p)) maps = false /\
   e = coverageFailure (path p)).
Proof.
  unfold checkPath. fold (sourceLogger (path p)).
  rewrite snd_bind, elem_of_app. cbv beta. rewrite globLoop_matchesAny. simpl.
  rewrite elem_of_forEach.
  set (init := mkGlobLoop found false "").
  assert (Hpre : forall pre,
    matchesAny (forEach (checkGlob (sourceLogger (path p)) p) pre init).1 = true ->
    matchedMap (forEach (checkGlob (sourceLogger (path p)) p) pre init).1 = configMap p).
  { intros pre. apply globLoop_matchedMap. discriminate. }
  split.
  - intros [(pre & kv & post & -> & H) | H].
    + apply elem_of_checkGlob in H as [H | (Hm & Hany & ->)].
      * left. exists kv. split; [|exact H].
        apply elem_of_app. right. apply elem_of_cons. left. reflexivity.
      * right. left. exists pre, kv, post. rewrite (Hpre pre Hany).
        rewrite globLoop_matchesAny in Hany. simpl in Hany. auto.
    + right. right.
      destruct (existsb _ maps); simpl in H; [inversion H|].
      apply elem_of_cons in H as [-> | H]; [|inversion H].
      split; reflexivity.
  - intros [(kv & Hin & H) | [(pre & kv & post & -> & Hm & Hany & ->) | [Hnone ->]]].
    + left. apply list_elem_of_split in Hin as (pre & post & ->).
      exists pre, kv, post. split; [reflexivity|].
      apply elem_of_checkGlob. left. exact H.
    + left. exists pre, kv, post. split; [reflexivity|].
      apply elem_of_checkGlob. right.
      assert (Hany' :
        matchesAny (forEach (checkGlob (sourceLogger (path p)) p) pre init).1 = true).
      { rewrite globLoop_matchesAny. exact Hany. }
      rewrite (Hpre pre Hany'). auto.
    + right. rewrite Hnone. simpl. apply elem_of_cons. left. reflexivity.
Qed.

Lemma checkPath_verdict maps found p :
  (checkPath maps found p).1 = found || existsb isFailure (checkPath maps found p).2.
Proof.
  unfold checkPath. fold (sourceLogger (path p)).
  rewrite fst_bind, snd_bind, existsb_app.
  destruct (negb _); simpl.
  - rewrite !orb_true_r. reflexivity.
  - rewrite orb_false_r. apply globLoop_foundFailures.
Qed.

(** The path loop: its output is that of its iterations, and the verdict
    is raised exactly by the failures logged. *)
Lemma elem_of_forEachFrom_checkPath (rangeMaps : nat -> list (string * ConfigMapSpec))
    k paths found e :
  e ∈ (forEachFrom (fun i found p => checkPath (rangeMaps i) found p) k paths found).2 <->
  exists i p found', paths !! i = Some p /\
    e ∈ (checkPath (rangeMaps (k + i)) found' p).2.
Proof.
  revert k found. induction paths as [|q paths IH]; intros k found; simpl.
  - split; [intros H; inversion H | intros (i & p & f & H & _); discriminate].
  - rewrite snd_bind, elem_of_app, IH. split.
    + intros [H | (i & p & f & Hi & H)].
      * exists 0, q, found. rewrite Nat.add_0_r. auto.
      * exists (S i), p, f. rewrite Nat.add_succ_r. auto.
    + intros ([|i] & p & f & Hi & H); simpl in Hi.
      * injection Hi as ->. left. rewrite Nat.add_0_r in H.
        apply elem_of_checkPath. apply elem_of_checkPath in H. exact H.
      * right. exists i, p, f. rewrite Nat.add_succ_r in H. auto.
Qed.

Lemma elem_of_checkPaths rangeMaps paths found e :
  e ∈ (checkPaths rangeMaps paths found).2 <->
  exists i p, paths !! i = Some p /\ e ∈ (checkPath (rangeMaps i) false p).2.
Proof.
  unfold checkPaths. rewrite elem_of_forEachFrom_checkPath. split.
  - intros (i & p & f & Hi & H). exists i, p. split; [exact Hi|].
    apply elem_of_checkPath. apply elem_of_checkPath in H. exact H.
  - intros (i & p & Hi & H). exists i, p, false. auto.
Qed.

Lemma forEachFrom_checkPath_verdict (rangeMaps : nat -> list (string * ConfigMapSpec))
    k paths found :
  (forEachFrom (fun i found p => checkPath (rangeMaps i) found p) k paths found).1 =
  found ||
  existsb isFailure
    (forEachFrom (fun i found p => checkPath (rangeMaps i) found p) k paths found).2.
Proof.
  revert k found. induction paths as [|q paths IH]; intros k found; simpl.
  - rewrite orb_false_r. reflexivity.
  - rewrite fst_bind, snd_bind, IH, checkPath_verdict, existsb_app, orb_assoc.
    reflexivity.
Qed.

Lemma checkPaths_verdict rangeMaps paths found :
  (checkPaths rangeMaps paths found).1 =
  found || existsb isFailure (checkPaths rangeMaps paths found).2.
Proof. apply forEachFrom_checkPath_verdict. Qed.

(** A failure in the output raises the verdict. *)
Lemma checkPaths_failure rangeMaps paths found e :
  e ∈ (checkPaths rangeMaps paths found).2 -> isFailure e = true ->
  (checkPaths rangeMaps paths found).1 = true.
Proof.
  intros Hin He. rewrite checkPaths_verdict.
  apply orb_true_iff. right. apply existsb_exists.
  exists e. split; [apply list_elem_of_In; exact Hin | exact He].
Qed.

End PartitionFacts.

(** ** The order of the rules *)

Lemma existsb_Permutation {A} (f : A -> bool) (l l' : list A) :
  l ≡ₚ l' -> existsb f l = existsb f l'.
Proof.
  induction 1 as [|x l l' _ IH|x y l|l l' l'' _ IH1 _ IH2]; simpl.
  - reflexivity.
  - rewrite IH. reflexivity.
  - rewrite !orb_assoc, (orb_comm (f y) (f x)). reflexivity.
  - congruence.
Qed.

Lemma isFailure_forgetGlob e : isFailure (forgetGlob e) = isFailure e.
Proof. unfold forgetGlob. destruct (entryMessage e); reflexivity. Qed.

Lemma existsb_isFailure_forgetGlob l :
  existsb isFailure (map forgetGlob l) = existsb isFailure l.
Proof.
  induction l as [|e l IH]; simpl; [reflexivity|].
  rewrite isFailure_forgetGlob, IH. reflexivity.
Qed.

Lemma forgetGlob_uniquenessFailure p g a b :
  forgetGlob (uniquenessFailure p g a b) =
  mkEntry ErrorLevel (sourceLogger p) (MsgMultipleConfigMaps a b).
Proof.
  unfold forgetGlob, uniquenessFailure, globLogger, WithField. simpl.
  rewrite delete_insert_eq, delete_id by apply sourceLogger_glob. reflexivity.
Qed.

Section OrderFacts.

Variable zglob_Match : string -> string -> bool * option string.

Abbreviation checkGlob := (checkGlob zglob_Match).
Abbreviation checkPath := (checkPath zglob_Match).
Abbreviation checkPaths := (checkPaths zglob_Match).
Abbreviation matches := (matches zglob_Match).
Abbreviation ruleChecks := (ruleChecks zglob_Match).
Abbreviation mismatchEntries := (mismatchEntries zglob_Match).
Abbreviation ruleEntries := (ruleEntries zglob_Match).
Abbreviation matchCount := (matchCount zglob_Match).
Abbreviation pathEntries := (pathEntries zglob_Match).

Lemma forgetGlob_ruleChecks p kv :
  map forgetGlob (ruleChecks p kv) = ruleChecks p kv.
Proof.
  unfold ruleChecks.
  destruct (hasDefaultCluster kv.2);
    destruct (zglob_Match kv.1 (path p)) as [m [?|]];
    destruct (zglob_Match kv.1 jobConfigRoot) as [root [?|]];
    try destruct root; try destruct (gzipOff kv.2); reflexivity.
Qed.

Lemma forgetGlob_mismatchEntries p kv :
  map forgetGlob (mismatchEntries p kv) = mismatchEntries p kv.
Proof. unfold mismatchEntries. destruct (_ && _); reflexivity. Qed.

Lemma matchCount_cons p kv maps :
  matchCount p (kv :: maps) =
  (if matches kv.1 (path p) then 1 else 0) + matchCount p maps.
Proof.
  unfold matchCount. rewrite filter_cons.
  destruct (matches kv.1 (path p)); reflexivity.
Qed.

Lemma globLoop_forgetGlob p maps st :
  (matchesAny st = true -> matchedMap st = configMap p) ->
  map forgetGlob (forEach (checkGlob (sourceLogger (path p)) p) maps st).2 ≡ₚ
  flat_map (ruleEntries p) maps ++
  replicate (matchCount p maps - (if matchesAny st then 0 else 1))
    (mkEntry ErrorLevel (sourceLogger (path p))
       (MsgMultipleConfigMaps (configMap p) (configMap p))).
Proof.
  revert st. induction maps as [|kv maps IH]; intros st Hst.
  - simpl. destruct (matchesAny st); reflexivity.
  - rewrite forEach_cons, snd_bind, map_app, checkGlob_output, !map_app.
    rewrite forgetGlob_ruleChecks, forgetGlob_mismatchEntries.
    rewrite IH, checkGlob_matchesAny.
    2:{ rewrite checkGlob_matchesAny, checkGlob_matchedMap.
        destruct (matches kv.1 (path p)); [reflexivity|].
        rewrite orb_false_r. exact Hst. }
    rewrite matchCount_cons.
    change (flat_map (ruleEntries p) (kv :: maps))
      with ((ruleChecks p kv ++ mismatchEntries p kv) ++ flat_map (ruleEntries p) maps).
    destruct (matches kv.1 (path p)) eqn:Hm; destruct (matchesAny st) eqn:Hany;
      simpl; rewrite <- ?app_assoc, ?Nat.sub_0_r; try reflexivity.
    rewrite (Hst eq_refl), forgetGlob_uniquenessFailure.
    apply Permutation_app_head. simpl.
    rewrite <- !Permutation_middle. reflexivity.
Qed.

Lemma checkPath_forgetGlob maps found p :
  map forgetGlob (checkPath maps found p).2 ≡ₚ pathEntries p maps.
Proof.
  unfold checkPath. fold (sourceLogger (path p)).
  rewrite snd_bind, map_app. cbv beta.
  rewrite globLoop_forgetGlob by discriminate.
  rewrite globLoop_matchesAny. simpl.
  unfold pathEntries, matchCount. rewrite <- app_assoc.
  destruct (existsb _ maps); reflexivity.
Qed.

Lemma pathEntries_Permutation p maps maps' :
  maps ≡ₚ maps' -> pathEntries p maps ≡ₚ pathEntries p maps'.
Proof.
  intros Hperm. unfold pathEntries, matchCount.
  rewrite (existsb_Permutation _ _ _ Hperm).
  rewrite (Permutation_flat_map (ruleEntries p) Hperm).
  rewrite Hperm at 1. reflexivity.
Qed.

Lemma checkPaths_forgetGlob (rangeMaps rangeMaps' : nat -> list (string * ConfigMapSpec))
    k paths found found' :
  (forall i, rangeMaps i ≡ₚ rangeMaps' i) ->
  map forgetGlob
    (forEachFrom (fun i found p => checkPath (rangeMaps i) found p) k paths found).2 ≡ₚ
  map forgetGlob
    (forEachFrom (fun i found p => checkPath (rangeMaps' i) found p) k paths found').2.
Proof.
  intros Hperm. revert k found found'.
  induction paths as [|p paths IH]; intros k found found'; simpl; [reflexivity|].
  rewrite !snd_bind, !map_app, !checkPath_forgetGlob.
  rewrite (pathEntries_Permutation p _ _ (Hperm k)).
  apply Permutation_app_head. apply IH.
Qed.

End OrderFacts.

(** ** The partition checker against a rule set *)

Section PartitionClaims.

Variable zglob_Match : string -> string -> bool * option string.

(** [pcfg.ConfigUpdater.Maps], and the order in which each iteration of
    the path loop ranges over it. *)
Variable Maps : gmap string ConfigMapSpec.
Variable rangeMaps : nat -> list (string * ConfigMapSpec).
Hypothesis rangeMaps_order : forall i, rangeMaps i ≡ₚ map_to_list Maps.

Abbreviation checkPath := (checkPath zglob_Match).
Abbreviation checkPaths := (checkPaths zglob_Match).
Abbreviation matches := (matches zglob_Match).
Abbreviation ruleEntries := (ruleEntries zglob_Match).

Lemma elem_of_rangeMaps i g cfg :
  (g, cfg) ∈ rangeMaps i <-> Maps !! g = Some cfg.
Proof. rewrite (rangeMaps_order i). apply elem_of_map_to_list. Qed.

Lemma rangeMaps_unmatched i name :
  existsb (fun kv => matches kv.1 name) (rangeMaps i) = false <->
  forall g cfg, Maps !! g = Some cfg -> matches g name = false.
Proof.
  split.
  - intros H g cfg Hg. apply elem_of_rangeMaps with (i := i) in Hg.
    destruct (matches g name) eqn:Hm; [|reflexivity].
    assert (Hex : existsb (fun kv => matches kv.1 name) (rangeMaps i) = true).
    { apply existsb_exists. exists (g, cfg).
      split; [apply list_elem_of_In; exact Hg | exact Hm]. }
    congruence.
  - intros H. apply not_true_is_false. intros Hex.
    apply existsb_exists in Hex as ([g cfg] & Hin & Hm).
    apply list_elem_of_In, elem_of_rangeMaps in Hin. simpl in Hm.
    rewrite (H g cfg Hin) in Hm. discriminate.
Qed.

(** Every entry of a rule is logged for every discovered path. *)
Lemma rule_entry_logged paths found p g cfg e :
  p ∈ paths -> Maps !! g = Some cfg -> e ∈ ruleEntries p (g, cfg) ->
  e ∈ (checkPaths rangeMaps paths found).2.
Proof.
  intros Hp Hg He. apply list_elem_of_lookup in Hp as [i Hi].
  apply elem_of_checkPaths. exists i, p. split; [exact Hi|].
  apply elem_of_checkPath. left. exists (g, cfg).
  split; [apply elem_of_rangeMaps; exact Hg | exact He].
Qed.

(** Where an entry of the output comes from. *)
Lemma logged_inv paths found e :
  e ∈ (checkPaths rangeMaps paths found).2 ->
  exists p, p ∈ paths /\
    ((exists g cfg, Maps !! g = Some cfg /\ e ∈ ruleEntries p (g, cfg)) \/
     (exists g cfg, Maps !! g = Some cfg /\ matches g (path p) = true /\
        e = uniquenessFailure (path p) g (configMap p) (configMap p)) \/
     ((forall g cfg, Maps !! g = Some cfg -> matches g (path p) = false) /\
      e = coverageFailure (path p))).
Proof.
  intros H. apply elem_of_checkPaths in H as (i & p & Hi & H).
  exists p. split; [apply list_elem_of_lookup; eauto|].
  apply elem_of_checkPath in H
    as [([g cfg] & Hin & H) | [(pre & [g cfg] & post & Heq & Hm & _ & ->) | [Hnone ->]]].
  - left. exists g, cfg. split; [eapply elem_of_rangeMaps; exact Hin | exact H].
  - right. left. exists g, cfg. split; [|auto].
    apply (elem_of_rangeMaps i). rewrite Heq.
    apply elem_of_app. right. apply elem_of_cons. left. reflexivity.
  - right. right. split; [|reflexivity].
    eapply rangeMaps_unmatched. exact Hnone.
Qed.

(** C1 (coverage).  For every discovered path: when no rule of the rule
    set matches it, the coverage failure for that path is logged and the
    verdict is a failure; when some rule matches it, no coverage failure
    for that path is logged. *)
Theorem coverage_failure_iff_unmatched paths found p :
  p ∈ paths ->
  ((forall g cfg, Maps !! g = Some cfg -> matches g (path p) = false) ->
   coverageFailure (path p) ∈ (checkPaths rangeMaps paths found).2 /\
   (checkPaths rangeMaps paths found).1 = true) /\
  ((exists g cfg, Maps !! g = Some cfg /\ matches g (path p) = true) ->
   coverageFailure (path p) ∉ (checkPaths rangeMaps paths found).2).
Proof.
  intros Hp. split.
  - intros Hnone.
    assert (Hin : coverageFailure (path p) ∈ (checkPaths rangeMaps paths found).2).
    { apply list_elem_of_lookup in Hp as [i Hi].
      apply elem_of_checkPaths. exists i, p. split; [exact Hi|].
      apply elem_of_checkPath. right. right. split; [|reflexivity].
      apply rangeMaps_unmatched. exact Hnone. }
    split; [exact Hin|]. eapply checkPaths_failure; [exact Hin | reflexivity].
  - intros (g & cfg & Hg & Hm) Hin.
    apply logged_inv in Hin as (q & _ & [(g' & cfg' & _ & H) | [H | [Hnone H]]]).
    + apply elem_of_ruleEntries in H
        as [[_ H] | [(? & _ & H) | [(? & _ & H) | [(_ & _ & H) | (_ & _ & H)]]]];
        discriminate H.
    + destruct H as (? & ? & _ & _ & H). discriminate H.
    + apply (f_equal entryData) in H. simpl in H. apply sourceLogger_inj in H.
      rewrite <- H in Hnone. rewrite (Hnone g cfg Hg) in Hm. discriminate.
Qed.

(** C3 (correctness).  For every discovered path and every rule that
    matches it: when the bundle name of the rule differs from the expected
    bundle of the path, the mismatch failure carrying both names is logged
    and the verdict is a failure; when they are equal, no mismatch failure
    is logged for that path and rule. *)
Theorem mismatch_failure_iff_names_differ paths found p g cfg :
  p ∈ paths -> Maps !! g = Some cfg -> matches g (path p) = true ->
  (Name cfg <> configMap p ->
   mismatchFailure (path p) g (Name cfg) (configMap p)
     ∈ (checkPaths rangeMaps paths found).2 /\
   (checkPaths rangeMaps paths found).1 = true) /\
  (Name cfg = configMap p ->
   forall got, mismatchFailure (path p) g got (configMap p)
     ∉ (checkPaths rangeMaps paths found).2).
Proof.
  intros Hp Hg Hm. split.
  - intros Hne.
    assert (Hin : mismatchFailure (path p) g (Name cfg) (configMap p)
                    ∈ (checkPaths rangeMaps paths found).2).
    { apply (rule_entry_logged paths found p g cfg); [exact Hp | exact Hg |].
      apply elem_of_ruleEntries. do 4 right. auto. }
    split; [exact Hin|]. eapply checkPaths_failure; [exact Hin | reflexivity].
  - intros Heq got Hin.
    apply logged_inv in Hin as (q & _ & [(g' & cfg' & Hg' & H) | [H | [_ H]]]).
    + apply elem_of_ruleEntries in H
        as [[_ H] | [(? & _ & H) | [(? & _ & H) | [(_ & _ & H) | (_ & Hne & H)]]]];
        try discriminate H.
      simpl in Hne, H.
      pose proof (f_equal entryData H) as Hdata.
      pose proof (f_equal entryMessage H) as Hmsg. simpl in Hdata, Hmsg.
      apply globLogger_inj in Hdata as [_ ->].
      rewrite Hg in Hg'. injection Hg' as <-. congruence.
    + destruct H as (? & ? & _ & _ & H). discriminate H.
    + discriminate H.
Qed.

(** Every uniqueness failure of the output names the expected bundle of
    its path in both places. *)
Lemma uniquenessFailure_inv paths found q g a b :
  uniquenessFailure q g a b ∈ (checkPaths rangeMaps paths found).2 ->
  exists p cfg, p ∈ paths /\ path p = q /\ Maps !! g = Some cfg /\
    matches g q = true /\ a = configMap p /\ b = configMap p.
Proof.
  intros Hin.
  apply logged_inv in Hin as (p & Hp & [(g' & cfg' & _ & H) | [H | [_ H]]]).
  - apply elem_of_ruleEntries in H
      as [[_ H] | [(? & _ & H) | [(? & _ & H) | [(_ & _ & H) | (_ & _ & H)]]]];
      discriminate H.
  - destruct H as (g' & cfg' & Hg' & Hm & H).
    pose proof (f_equal entryData H) as Hdata.
    pose proof (f_equal entryMessage H) as Hmsg. simpl in Hdata, Hmsg.
    apply globLogger_inj in Hdata as [-> ->].
    injection Hmsg as -> ->. exists p, cfg'. repeat split; assumption.
  - discriminate H.
Qed.

(** Two distinct rules that match a discovered path: the uniqueness
    failure is logged at the one the iteration visits second, and it names
    the expected bundle of the path, not the bundles of the rules. *)
Lemma uniqueness_failure_logged paths found p g1 cfg1 g2 cfg2 :
  p ∈ paths -> Maps !! g1 = Some cfg1 -> Maps !! g2 = Some cfg2 -> g1 <> g2 ->
  matches g1 (path p) = true -> matches g2 (path p) = true ->
  (uniquenessFailure (path p) g1 (configMap p) (configMap p)
     ∈ (checkPaths rangeMaps paths found).2 \/
   uniquenessFailure (path p) g2 (configMap p) (configMap p)
     ∈ (checkPaths rangeMaps paths found).2) /\
  (checkPaths rangeMaps paths found).1 = true.
Proof.
  intros Hp Hg1 Hg2 Hne Hm1 Hm2.
  apply list_elem_of_lookup in Hp as [i Hi].
  assert (Hsecond : forall pre kv post kv',
    rangeMaps i = pre ++ kv :: post -> kv' ∈ pre ->
    matches kv.1 (path p) = true -> matches kv'.1 (path p) = true ->
    uniquenessFailure (path p) kv.1 (configMap p) (configMap p)
      ∈ (checkPaths rangeMaps paths found).2).
  { intros pre kv post kv' Heq Hin Hkv Hkv'.
    apply elem_of_checkPaths. exists i, p. split; [exact Hi|].
    apply elem_of_checkPath. right. left. exists pre, kv, post.
    split; [exact Heq | split; [exact Hkv | split; [|reflexivity]]].
    apply existsb_exists. exists kv'.
    split; [apply list_elem_of_In; exact Hin | exact Hkv']. }
  assert (Hor :
    uniquenessFailure (path p) g1 (configMap p) (configMap p)
      ∈ (checkPaths rangeMaps paths found).2 \/
    uniquenessFailure (path p) g2 (configMap p) (configMap p)
      ∈ (checkPaths rangeMaps paths found).2).
  { pose proof (proj2 (elem_of_rangeMaps i g1 cfg1) Hg1) as Hin1.
    pose proof (proj2 (elem_of_rangeMaps i g2 cfg2) Hg2) as Hin2.
    apply list_elem_of_split in Hin1 as (pre & post & Heq).
    rewrite Heq in Hin2.
    apply elem_of_app in Hin2 as [Hin2 | Hin2].
    - left. apply (Hsecond pre (g1, cfg1) post (g2, cfg2)); assumption.
    - apply elem_of_cons in Hin2 as [Hin2 | Hin2]; [congruence|].
      apply list_elem_of_split in Hin2 as (mid & post' & ->).
      right. apply (Hsecond (pre ++ (g1, cfg1) :: mid) (g2, cfg2) post' (g1, cfg1)).
      + rewrite Heq, <- app_assoc. reflexivity.
      + apply elem_of_app. right. apply elem_of_cons. left. reflexivity.
      + exact Hm2.
      + exact Hm1. }
  split; [exact Hor|].
  destruct Hor as [H | H]; (eapply checkPaths_failure; [exact H | reflexivity]).
Qed.

(** C5, as the program has it.  For every discovered path, a rule whose
    cluster aliases include the reserved default alias logs the default
    alias failure for that path and makes the verdict a failure, whether
    or not its pattern matches anything. *)
Theorem default_alias_failure_for_each_path paths found p g cfg :
  p ∈ paths -> Maps !! g = Some cfg ->
  is_Some (Clusters cfg !! DefaultClusterAlias) ->
  defaultClusterFailure (path p) ∈ (checkPaths rangeMaps paths found).2 /\
  (checkPaths rangeMaps paths found).1 = true.
Proof.
  intros Hp Hg [namespaces Halias].
  assert (Hin : defaultClusterFailure (path p) ∈ (checkPaths rangeMaps paths found).2).
  { apply (rule_entry_logged paths found p g cfg); [exact Hp | exact Hg |].
    apply elem_of_ruleEntries. left. simpl. unfold hasDefaultCluster.
    rewrite Halias. auto. }
  split; [exact Hin|]. eapply checkPaths_failure; [exact Hin | reflexivity].
Qed.

(** C6, as the program has it.  A rule whose pattern matches the
    job-configuration root and whose gzip flag is unset or false logs the
    gzip failure for every discovered path and makes the verdict a failure;
    with the flag set to true no gzip failure is logged for that rule. *)
Theorem gzip_failure_for_each_path paths found g cfg :
  Maps !! g = Some cfg -> zglob_Match g jobConfigRoot = (true, None) ->
  (gzipOff cfg = true ->
   forall p, p ∈ paths ->
     gzipFailure (path p) g ∈ (checkPaths rangeMaps paths found).2 /\
     (checkPaths rangeMaps paths found).1 = true) /\
  (GZIP cfg = Some true ->
   forall q, gzipFailure q g ∉ (checkPaths rangeMaps paths found).2).
Proof.
  intros Hg Hroot. split.
  - intros Hoff p Hp.
    assert (Hin : gzipFailure (path p) g ∈ (checkPaths rangeMaps paths found).2).
    { apply (rule_entry_logged paths found p g cfg); [exact Hp | exact Hg |].
      apply elem_of_ruleEntries. do 3 right. left. auto. }
    split; [exact Hin|]. eapply checkPaths_failure; [exact Hin | reflexivity].
  - intros Hon q Hin.
    apply logged_inv in Hin as (p & _ & [(g' & cfg' & Hg' & H) | [H | [_ H]]]).
    + apply elem_of_ruleEntries in H
        as [[_ H] | [(? & _ & H) | [(? & _ & H) | [(_ & Hoff & H) | (_ & _ & H)]]]];
        try discriminate H.
      simpl in Hoff, H. apply (f_equal entryData) in H. simpl in H.
      apply globLogger_inj in H as [_ ->].
      rewrite Hg in Hg'. injection Hg' as <-.
      unfold gzipOff in Hoff. rewrite Hon in Hoff. discriminate.
    + destruct H as (? & ? & _ & _ & H). discriminate H.
    + discriminate H.
Qed.

End PartitionClaims.

(** ** The injection checker *)

Lemma elem_of_forEachFrom {A St} (body : nat -> St -> A -> Log St) k xs s e :
  e ∈ (forEachFrom body k xs s).2 <->
  exists pre x post, xs = pre ++ x :: post /\
    e ∈ (body (k + length pre) (forEachFrom body k pre s).1 x).2.
Proof.
  revert k s. induction xs as [|x xs IH]; intros k s.
  - simpl. split.
    + intros H. inversion H.
    + intros (pre & y & post & Heq & _). destruct pre; discriminate.
  - simpl. rewrite snd_bind, elem_of_app, IH. split.
    + intros [H | (pre & y & post & -> & H)].
      * exists [], x, xs. simpl. rewrite Nat.add_0_r. auto.
      * exists (x :: pre), y, post. split; [reflexivity|].
        simpl. rewrite fst_bind, Nat.add_succ_r. exact H.
    + intros (pre & y & post & Heq & H). destruct pre as [|z pre].
      * simpl in Heq, H. injection Heq as <- <-. left.
        rewrite Nat.add_0_r in H. exact H.
      * simpl in Heq. injection Heq as <- ->. right.
        exists pre, y, post. split; [reflexivity|].
        simpl in H. rewrite fst_bind, Nat.add_succ_r in H. exact H.
Qed.

Lemma forEachFrom_ext {A St} (body body' : nat -> St -> A -> Log St) k xs s :
  (forall i s x, body i s x = body' i s x) ->
  forEachFrom body k xs s = forEachFrom body' k xs s.
Proof.
  intros Hext. revert k s. induction xs as [|x xs IH]; intros k s; simpl.
  - reflexivity.
  - rewrite Hext. unfold bind. destruct (body' k s x) as [s' out].
    rewrite IH. reflexivity.
Qed.

Section InjectionFacts.

Variable Info : Type.
Variable Info_ConfigMapName : Info -> string.

Abbreviation checkEnv := (checkEnv Info Info_ConfigMapName).
Abbreviation checkSpec := (checkSpec Info Info_ConfigMapName).

(** What one environment entry logs does not depend on the flag so far,
    and the flag is raised exactly when it logs. *)
Lemma checkEnv_output_found relPath name configInfos i found found' env :
  (checkEnv relPath name configInfos i found env).2 =
  (checkEnv relPath name configInfos i found' env).2.
Proof.
  unfold checkEnv. destruct (configSpecRef env) as [ref|]; [|reflexivity].
  destruct (configInfos !! ConfigMapKeyRef_Key ref) as [info|]; [|reflexivity].
  destruct (negb _); reflexivity.
Qed.

Lemma checkEnv_verdict relPath name configInfos i found env :
  (checkEnv relPath name configInfos i found env).1 =
  found || existsb isFailure (checkEnv relPath name configInfos i found env).2.
Proof.
  unfold checkEnv. destruct (configSpecRef env) as [ref|]; simpl;
    [|rewrite orb_false_r; reflexivity].
  destruct (configInfos !! ConfigMapKeyRef_Key ref) as [info|]; simpl;
    [|rewrite orb_true_r; reflexivity].
  destruct (negb _); simpl; rewrite ?orb_true_r, ?orb_false_r; reflexivity.
Qed.

Lemma envLoop_verdict relPath name configInfos i envs found :
  (forEach (checkEnv relPath name configInfos i) envs found).1 =
  found || existsb isFailure (forEach (checkEnv relPath name configInfos i) envs found).2.
Proof.
  revert found. induction envs as [|env envs IH]; intros found; simpl.
  - rewrite orb_false_r. reflexivity.
  - rewrite fst_bind, snd_bind, IH, checkEnv_verdict, existsb_app, orb_assoc.
    reflexivity.
Qed.

Lemma containerLoop_verdict relPath name configInfos k containers found :
  (forEachFrom
     (fun containerIndex found container =>
        forEach (checkEnv relPath name configInfos containerIndex) (Env container) found)
     k containers found).1 =
  found ||
  existsb isFailure
    (forEachFrom
       (fun containerIndex found container =>
          forEach (checkEnv relPath name configInfos containerIndex) (Env container) found)
       k containers found).2.
Proof.
  revert k found. induction containers as [|c containers IH]; intros k found; simpl.
  - rewrite orb_false_r. reflexivity.
  - rewrite fst_bind, snd_bind, IH, envLoop_verdict, existsb_app, orb_assoc.
    reflexivity.
Qed.

Lemma checkSpec_verdict spec relPath name configInfos :
  (checkSpec spec relPath name configInfos).1 =
  existsb isFailure (checkSpec spec relPath name configInfos).2.
Proof. unfold checkSpec. rewrite containerLoop_verdict. reflexivity. Qed.

(** The output of [checkSpec] is what the environment entries of its
    containers log. *)
Lemma elem_of_checkSpec spec relPath name configInfos e :
  e ∈ (checkSpec spec relPath name configInfos).2 <->
  exists i container env,
    Containers spec !! i = Some container /\ env ∈ Env container /\
    e ∈ (checkEnv relPath name configInfos i false env).2.
Proof.
  unfold checkSpec. rewrite elem_of_forEachFrom. simpl. split.
  - intros (pre & c & post & Heq & H).
    apply elem_of_forEach in H as (epre & env & epost & Henv & H).
    exists (length pre), c, env. split; [|split].
    + rewrite Heq. apply list_lookup_middle. reflexivity.
    + rewrite Henv. apply elem_of_app. right. apply elem_of_cons. left. reflexivity.
    + rewrite (checkEnv_output_found _ _ _ _ _ false) in H. exact H.
  - intros (i & c & env & Hi & Henv & H).
    apply list_elem_of_split_length in Hi as (pre & post & -> & ->).
    exists pre, c, post. split; [reflexivity|].
    apply list_elem_of_split in Henv as (epre & epost & ->).
    apply elem_of_forEach. exists epre, env, epost. split; [reflexivity|].
    rewrite (checkEnv_output_found _ _ _ _ _ false). exact H.
Qed.

(** C4 (injection consistency).  For an environment entry of a container
    of the specification that is an injection reference with key [K] and
    bundle name [B]: when [K] is not in the index, the entry logs exactly
    the unknown key failure; when [K] is in the index with another bundle
    name, it logs exactly the wrong bundle failure with both names; in both
    cases the failure is in the output of [checkSpec], which reports a
    failure.  When the names are equal the entry logs nothing and leaves
    the flag as it was. *)
Theorem injection_reference_checked spec relPath name configInfos i container env ref :
  Containers spec !! i = Some container -> env ∈ Env container ->
  configSpecRef env = Some ref ->
  match configInfos !! ConfigMapKeyRef_Key ref with
  | None =>
      (forall found, checkEnv relPath name configInfos i found env =
         (true, [unknownKeyFailure relPath name i (ConfigMapKeyRef_Key ref)])) /\
      unknownKeyFailure relPath name i (ConfigMapKeyRef_Key ref)
        ∈ (checkSpec spec relPath name configInfos).2 /\
      (checkSpec spec relPath name configInfos).1 = true
  | Some configInfo =>
      if String.eqb (ConfigMapKeyRef_Name ref) (Info_ConfigMapName configInfo)
      then forall found, checkEnv relPath name configInfos i found env = (found, [])
      else
        (forall found, checkEnv relPath name configInfos i found env =
           (true, [wrongShardFailure relPath name i (ConfigMapKeyRef_Key ref)
                     (ConfigMapKeyRef_Name ref) (Info_ConfigMapName configInfo)])) /\
        wrongShardFailure relPath name i (ConfigMapKeyRef_Key ref)
          (ConfigMapKeyRef_Name ref) (Info_ConfigMapName configInfo)
          ∈ (checkSpec spec relPath name configInfos).2 /\
        (checkSpec spec relPath name configInfos).1 = true
  end.
Proof.
  intros Hi Henv Href.
  assert (Hlogged : forall e, isFailure e = true ->
            e ∈ (checkEnv relPath name configInfos i false env).2 ->
            e ∈ (checkSpec spec relPath name configInfos).2 /\
            (checkSpec spec relPath name configInfos).1 = true).
  { intros e He Hin.
    assert (Hspec : e ∈ (checkSpec spec relPath name configInfos).2).
    { apply elem_of_checkSpec. exists i, container, env. auto. }
    split; [exact Hspec|]. rewrite checkSpec_verdict. apply existsb_exists.
    exists e. split; [apply list_elem_of_In; exact Hspec | exact He]. }
  unfold checkEnv in *. rewrite Href in *.
  destruct (configInfos !! ConfigMapKeyRef_Key ref) as [configInfo|].
  - destruct (String.eqb _ _); simpl in *.
    + reflexivity.
    + split; [reflexivity|]. apply Hlogged; [reflexivity|].
      apply elem_of_cons. left. reflexivity.
  - split; [reflexivity|]. apply Hlogged; [reflexivity|].
    apply elem_of_cons. left. reflexivity.
Qed.

(** C10.  [checkSpec] reads the containers of a specification only:
    whatever its init containers are, the result is the same, and a
    specification with init containers alone logs nothing and reports no
    failure. *)
Theorem init_containers_not_inspected initContainers containers relPath name configInfos :
  checkSpec (mkPodSpec initContainers containers) relPath name configInfos =
  checkSpec (mkPodSpec [] containers) relPath name configInfos /\
  checkSpec (mkPodSpec initContainers []) relPath name configInfos = (false, []).
Proof. split; reflexivity. Qed.

End InjectionFacts.

(** ** The inventory and [mainChecks] *)

Section MainFacts.

Variable zglob_Match : string -> string -> bool * option string.
Variable Info : Type.
Variable Info_Filename : Info -> string.
Variable Info_Basename : Info -> string.
Variable Info_ConfigMapName : Info -> string.
Variable JobInfo : Type.
Variable JobInfo_Filename : JobInfo -> string.
Variable JobInfo_ConfigMapName : JobInfo -> string.
Variable filepath_Rel : string -> string -> string.
Variable releaseRepoDir : string.

Abbreviation ciopCallback :=
  (ciopCallback Info Info_Filename Info_Basename Info_ConfigMapName filepath_Rel
     releaseRepoDir).
Abbreviation jobCallback :=
  (jobCallback Info Info_ConfigMapName JobInfo JobInfo_Filename JobInfo_ConfigMapName
     filepath_Rel releaseRepoDir).
Abbreviation mainChecks :=
  (mainChecks zglob_Match Info Info_Filename Info_Basename Info_ConfigMapName
     JobInfo JobInfo_Filename JobInfo_ConfigMapName filepath_Rel releaseRepoDir).

(** Building the inventory logs nothing. *)
Lemma ciopLoop_output infos st : (forEach ciopCallback infos st).2 = [].
Proof.
  revert st. induction infos as [|info infos IH]; intros st; [reflexivity|].
  rewrite forEach_cons, snd_bind, IH. reflexivity.
Qed.

Lemma ciopLoop_paths infos st :
  (forEach ciopCallback infos st).1.1 =
  st.1 ++ map (fun info => mkPathWithConfig
                             (filepath_Rel releaseRepoDir (Info_Filename info))
                             (Info_ConfigMapName info)) infos.
Proof.
  revert st. induction infos as [|info infos IH]; intros st.
  - simpl. rewrite app_nil_r. reflexivity.
  - rewrite forEach_cons, fst_bind, IH. simpl. rewrite <- app_assoc. reflexivity.
Qed.

(** Files with other keys leave the entry of a key as it is. *)
Lemma ciopLoop_index_other infos st key :
  (forall info, info ∈ infos -> Info_Basename info <> key) ->
  (forEach ciopCallback infos st).1.2 !! key = st.2 !! key.
Proof.
  revert st. induction infos as [|info infos IH]; intros st Hother.
  - reflexivity.
  - rewrite forEach_cons, fst_bind, IH.
    + simpl. apply lookup_insert_ne. apply Hother. apply elem_of_cons. left. reflexivity.
    + intros info' Hin. apply Hother. apply elem_of_cons. right. exact Hin.
Qed.

(** The index holds, for a key, the last file of the walk with that key. *)
Lemma ciopLoop_index_last before info after st :
  (forall info', info' ∈ after -> Info_Basename info' <> Info_Basename info) ->
  (forEach ciopCallback (before ++ info :: after) st).1.2 !! Info_Basename info =
  Some info.
Proof.
  intros Hafter. rewrite forEach_app_fst, forEach_cons, fst_bind.
  rewrite ciopLoop_index_other by exact Hafter.
  simpl. apply lookup_insert_eq.
Qed.

(** C9.  When two configuration files of the walk have the same key, the
    second being the last file with that key: building the index logs
    nothing, the index holds the second file for the key, and an injection
    reference with that key is checked against the bundle name of the
    second file alone. *)
Theorem duplicate_key_last_file_wins before first between last after :
  Info_Basename first = Info_Basename last ->
  (forall info, info ∈ after -> Info_Basename info <> Info_Basename last) ->
  (forEach ciopCallback (before ++ first :: between ++ last :: after) ([], ∅)).2 = [] /\
  (forEach ciopCallback (before ++ first :: between ++ last :: after) ([], ∅)).1.2
    !! Info_Basename first = Some last /\
  forall relPath name i found env ref,
    configSpecRef env = Some ref ->
    ConfigMapKeyRef_Key ref = Info_Basename first ->
    checkEnv Info Info_ConfigMapName relPath name
      (forEach ciopCallback (before ++ first :: between ++ last :: after) ([], ∅)).1.2
      i found env =
    if String.eqb (ConfigMapKeyRef_Name ref) (Info_ConfigMapName last)
    then (found, [])
    else (true, [wrongShardFailure relPath name i (ConfigMapKeyRef_Key ref)
                   (ConfigMapKeyRef_Name ref) (Info_ConfigMapName last)]).
Proof.
  intros Hkey Hafter.
  assert (Hidx :
    (forEach ciopCallback (before ++ first :: between ++ last :: after) ([], ∅)).1.2
      !! Info_Basename first = Some last).
  { rewrite Hkey.
    replace (before ++ first :: between ++ last :: after)
      with ((before ++ first :: between) ++ last :: after)
      by (rewrite <- app_assoc; reflexivity).
    apply ciopLoop_index_last. exact Hafter. }
  split; [apply ciopLoop_output | split; [exact Hidx|]].
  intros relPath name i found env ref Href Hk.
  unfold checkEnv. rewrite Href, Hk, Hidx.
  destruct (String.eqb _ _); reflexivity.
Qed.

(** The output of [mainChecks]: the injection failures of the job walk, the
    output of the partition checker, and the fatal entry when the verdict
    is a failure. *)
Lemma main_eq rangeMaps ciopFiles jobFiles :
  mainChecks rangeMaps ciopFiles jobFiles =
  let inventory := (forEach ciopCallback ciopFiles ([], ∅)).1 in
  let jobs := forEach (jobCallback inventory.2) jobFiles (inventory.1, false) in
  let partition := checkPaths zglob_Match rangeMaps jobs.1.1 jobs.1.2 in
  (partition.1, jobs.2 ++ partition.2 ++ if partition.1 then [fatalEntry] else []).
Proof.
  unfold mainChecks. cbv zeta.
  pose proof (ciopLoop_output ciopFiles ([], ∅)) as Hquiet.
  destruct (forEach ciopCallback ciopFiles ([], ∅)) as [inventory out0].
  simpl in Hquiet. subst out0. unfold bind at 1. simpl.
  destruct (forEach (jobCallback inventory.2) jobFiles (inventory.1, false))
    as [jobs out1].
  unfold bind at 1. simpl.
  destruct (checkPaths zglob_Match rangeMaps jobs.1 jobs.2) as [found out2].
  unfold bind at 1. simpl.
  destruct found; reflexivity.
Qed.

End MainFacts.

(** * The checker on concrete inputs *)

Lemma coverage_witness :
  coverageFailure "other/foo.yaml"
    ∈ (checkPaths sampleMatch (inMapOrder oneRule) [otherYaml] false).2 /\
  (checkPaths sampleMatch (inMapOrder oneRule) [otherYaml] false).1 = true.
Proof.
  apply (coverage_failure_iff_unmatched sampleMatch oneRule (inMapOrder oneRule)
           (fun _ => Permutation_refl _) [otherYaml] false otherYaml).
  - constructor.
  - intros g cfg H. unfold oneRule in H.
    apply lookup_singleton_Some in H as [<- <-]. reflexivity.
Defined.

(** C2 at the rule set [{dir/*.yaml: BundleA, dir/foo.*: BundleB}] and the
    file [dir/foo.yaml] of bundle [BundleA]: in either order of the rules
    the uniqueness failure names [BundleA] twice and [BundleB] nowhere. *)
Theorem uniqueness_failure_names_expected_bundle_twice :
  checkPaths sampleMatch
    (fun _ => [("dir/*.yaml", bundleA); ("dir/foo.*", bundleB)]) [fooYaml] false =
  (true, [uniquenessFailure "dir/foo.yaml" "dir/foo.*" "BundleA" "BundleA";
          mismatchFailure "dir/foo.yaml" "dir/foo.*" "BundleB" "BundleA"]) /\
  checkPaths sampleMatch
    (fun _ => [("dir/foo.*", bundleB); ("dir/*.yaml", bundleA)]) [fooYaml] false =
  (true, [mismatchFailure "dir/foo.yaml" "dir/foo.*" "BundleB" "BundleA";
          uniquenessFailure "dir/foo.yaml" "dir/*.yaml" "BundleA" "BundleA"]).
Proof. split; vm_compute; reflexivity. Qed.

Lemma mismatch_witness :
  mismatchFailure "dir/foo.yaml" "dir/foo.*" "BundleB" "BundleA"
    ∈ (checkPaths sampleMatch (inMapOrder twoRules) [fooYaml] false).2 /\
  (checkPaths sampleMatch (inMapOrder twoRules) [fooYaml] false).1 = true.
Proof.
  apply (mismatch_failure_iff_names_differ sampleMatch twoRules (inMapOrder twoRules)
           (fun _ => Permutation_refl _) [fooYaml] false fooYaml "dir/foo.*" bundleB).
  - constructor.
  - vm_compute. reflexivity.
  - vm_compute. reflexivity.
  - discriminate.
Defined.

Lemma injection_witness :
  (forall found,
     checkEnv SampleInfo sampleConfigMapName "jobs/a.yaml" "job" {[ "k1" := k1Last ]}
       0 found injectedEnv =
     (true, [wrongShardFailure "jobs/a.yaml" "job" 0 "k1" "BundleX" "BundleY"])) /\
  wrongShardFailure "jobs/a.yaml" "job" 0 "k1" "BundleX" "BundleY"
    ∈ (checkSpec SampleInfo sampleConfigMapName injectedSpec "jobs/a.yaml" "job"
         {[ "k1" := k1Last ]}).2 /\
  (checkSpec SampleInfo sampleConfigMapName injectedSpec "jobs/a.yaml" "job"
     {[ "k1" := k1Last ]}).1 = true.
Proof.
  refine (injection_reference_checked SampleInfo sampleConfigMapName injectedSpec
            "jobs/a.yaml" "job" {[ "k1" := k1Last ]} 0 (mkContainer [injectedEnv])
            injectedEnv (mkConfigMapKeySelector "BundleX" "k1") _ _ _).
  - reflexivity.
  - constructor.
  - reflexivity.
Defined.

(** C5 as stated fails: a rule with the default alias and no discovered
    file; the run logs nothing and succeeds. *)
Lemma default_alias_unreported_without_files :
  defaultAliasRule !! "dir/*.yaml" =
    Some (mkConfigMapSpec "BundleA" (Some true) {[ "default" := ["ci"] ]}) /\
  hasDefaultCluster (mkConfigMapSpec "BundleA" (Some true) {[ "default" := ["ci"] ]})
    = true /\
  sampleMain (inMapOrder defaultAliasRule) [] [] = (false, []).
Proof. repeat split; vm_compute; reflexivity. Qed.

Lemma default_alias_witness :
  defaultClusterFailure "other/foo.yaml"
    ∈ (checkPaths sampleMatch (inMapOrder defaultAliasRule) [otherYaml] false).2 /\
  (checkPaths sampleMatch (inMapOrder defaultAliasRule) [otherYaml] false).1 = true.
Proof.
  apply (default_alias_failure_for_each_path sampleMatch defaultAliasRule
           (inMapOrder defaultAliasRule) (fun _ => Permutation_refl _)
           [otherYaml] false otherYaml "dir/*.yaml"
           (mkConfigMapSpec "BundleA" (Some true) {[ "default" := ["ci"] ]})).
  - constructor.
  - vm_compute. reflexivity.
  - exists ["ci"]. vm_compute. reflexivity.
Defined.

(** C6 as stated fails: a rule for the job-configuration root without
    gzip and no discovered file; the run logs nothing and succeeds. *)
Lemma gzip_unreported_without_files :
  jobsRule !! "ci-operator/jobs" = Some (mkConfigMapSpec "job-config" None ∅) /\
  sampleMatch "ci-operator/jobs" jobConfigRoot = (true, None) /\
  gzipOff (mkConfigMapSpec "job-config" None ∅) = true /\
  sampleMain (inMapOrder jobsRule) [] [] = (false, []).
Proof. repeat split; vm_compute; reflexivity. Qed.

Lemma gzip_witness :
  gzipFailure "dir/foo.yaml" "ci-operator/jobs"
    ∈ (checkPaths sampleMatch (inMapOrder jobsRule) [fooYaml] false).2 /\
  (checkPaths sampleMatch (inMapOrder jobsRule) [fooYaml] false).1 = true.
Proof.
  refine (proj1 (gzip_failure_for_each_path sampleMatch jobsRule (inMapOrder jobsRule)
                   (fun _ => Permutation_refl _) [fooYaml] false "ci-operator/jobs"
                   (mkConfigMapSpec "job-config" None ∅) _ _) _ fooYaml _).
  - vm_compute. reflexivity.
  - vm_compute. reflexivity.
  - reflexivity.
  - constructor.
Defined.

Lemma duplicate_key_witness :
  (forEach (ciopCallback SampleInfo sampleFilename sampleBasename sampleConfigMapName
              sampleRel "") [k1First; k1Last] ([], ∅)).1.2 !! "k1" = Some k1Last /\
  checkEnv SampleInfo sampleConfigMapName "jobs/a.yaml" "job"
    (forEach (ciopCallback SampleInfo sampleFilename sampleBasename sampleConfigMapName
                sampleRel "") [k1First; k1Last] ([], ∅)).1.2 0 false injectedEnv =
  (true, [wrongShardFailure "jobs/a.yaml" "job" 0 "k1" "BundleX" "BundleY"]).
Proof.
  destruct (duplicate_key_last_file_wins SampleInfo sampleFilename sampleBasename
              sampleConfigMapName sampleRel "" [] k1First [] k1Last [])
    as (_ & Hidx & Hcheck).
  - reflexivity.
  - intros info H. inversion H.
  - split; [exact Hidx|].
    exact (Hcheck "jobs/a.yaml" "job" 0 false injectedEnv
             (mkConfigMapKeySelector "BundleX" "k1") eq_refl eq_refl).
Defined.

(** * Further properties of the program *)

(** ** Loops whose output does not depend on the flag *)

(** A loop over a body that logs [entries x] and raises the flag exactly
    when one of them is a failure logs the entries of its items in order,
    and raises the flag in the same way. *)
Lemma forEach_flagged {A} (body : bool -> A -> Log bool) (entries : A -> list Entry)
    xs found :
  (forall found x,
     body found x = (found || existsb isFailure (entries x), entries x)) ->
  forEach body xs found =
  (found || existsb isFailure (flat_map entries xs), flat_map entries xs).
Proof.
  intros Hbody. revert found. induction xs as [|x xs IH]; intros found.
  - simpl. rewrite orb_false_r. reflexivity.
  - rewrite forEach_cons, Hbody. unfold bind. rewrite IH. simpl.
    rewrite existsb_app, orb_assoc. reflexivity.
Qed.

Lemma flat_map_concat {A B} (f : A -> list B) (ls : list (list A)) :
  flat_map f (concat ls) = flat_map (flat_map f) ls.
Proof.
  induction ls as [|l ls IH]; simpl; [reflexivity|].
  rewrite flat_map_app, IH. reflexivity.
Qed.

Lemma flat_map_map {A B C} (f : B -> list C) (g : A -> B) (l : list A) :
  flat_map f (map g l) = flat_map (fun x => f (g x)) l.
Proof.
  induction l as [|x l IH]; simpl; [reflexivity|]. rewrite IH. reflexivity.
Qed.

Lemma existsb_false_iff {A} (f : A -> bool) (l : list A) :
  existsb f l = false <-> forall x, x ∈ l -> f x = false.
Proof.
  split.
  - intros H x Hin. destruct (f x) eqn:Hx; [|reflexivity].
    assert (Hex : existsb f l = true).
    { apply existsb_exists. exists x. split; [apply list_elem_of_In; exact Hin | exact Hx]. }
    congruence.
  - intros H. apply not_true_is_false. intros Hex.
    apply existsb_exists in Hex as (x & Hin & Hx).
    apply list_elem_of_In in Hin. rewrite (H x Hin) in Hx. discriminate.
Qed.

(** ** The injection checker: what passes *)

Section InjectionExtras.

Variable Info : Type.
Variable Info_ConfigMapName : Info -> string.

Abbreviation checkEnv := (checkEnv Info Info_ConfigMapName).
Abbreviation checkSpec := (checkSpec Info Info_ConfigMapName).
Abbreviation consistentRef := (consistentRef Info_ConfigMapName).

(** An injection reference logs nothing exactly when it is consistent
    with the index, and what it logs is a failure. *)
Lemma checkEnv_quiet_iff relPath name configInfos i found env ref :
  configSpecRef env = Some ref ->
  (checkEnv relPath name configInfos i found env).2 = [] <->
  consistentRef configInfos ref.
Proof.
  intros Href. unfold checkEnv, consistentRef. rewrite Href.
  destruct (configInfos !! ConfigMapKeyRef_Key ref) as [info|] eqn:Hidx.
  - destruct (String.eqb_spec (ConfigMapKeyRef_Name ref) (Info_ConfigMapName info));
      simpl; split.
    + intros _. exists info. auto.
    + reflexivity.
    + discriminate.
    + intros (info' & Hinfo & Hname). congruence.
  - simpl. split; [discriminate|]. intros (info' & Hinfo & _). discriminate.
Qed.

Lemma checkEnv_entries_fail relPath name configInfos i found env e :
  e ∈ (checkEnv relPath name configInfos i found env).2 -> isFailure e = true.
Proof.
  unfold checkEnv. destruct (configSpecRef env) as [ref|]; simpl;
    [|intros H; inversion H].
  destruct (configInfos !! ConfigMapKeyRef_Key ref) as [info|]; simpl.
  - destruct (negb _); simpl; intros H; [|inversion H].
    apply elem_of_cons in H as [-> | H]; [reflexivity | inversion H].
  - intros H. apply elem_of_cons in H as [-> | H]; [reflexivity | inversion H].
Qed.

Lemma checkSpec_entries_fail spec relPath name configInfos e :
  e ∈ (checkSpec spec relPath name configInfos).2 -> isFailure e = true.
Proof.
  intros H. apply elem_of_checkSpec in H as (i & c & env & _ & _ & H).
  eapply checkEnv_entries_fail. exact H.
Qed.

(** [checkSpec] logs nothing exactly when every injection reference of
    its containers is consistent with the index. *)
Lemma checkSpec_quiet_iff spec relPath name configInfos :
  (checkSpec spec relPath name configInfos).2 = [] <->
  forall container env ref,
    container ∈ Containers spec -> env ∈ Env container ->
    configSpecRef env = Some ref -> consistentRef configInfos ref.
Proof.
  split.
  - intros Hquiet c env ref Hc Henv Href.
    apply list_elem_of_lookup in Hc as [i Hi].
    apply (checkEnv_quiet_iff relPath name configInfos i false env ref Href).
    destruct (checkEnv relPath name configInfos i false env).2 as [|e out] eqn:Hout;
      [reflexivity|].
    assert (Hin : e ∈ (checkSpec spec relPath name configInfos).2).
    { apply elem_of_checkSpec. exists i, c, env. rewrite Hout.
      split; [exact Hi | split; [exact Henv | apply elem_of_cons; left; reflexivity]]. }
    rewrite Hquiet in Hin. inversion Hin.
  - intros Hall.
    destruct (checkSpec spec relPath name configInfos).2 as [|e out] eqn:Hout;
      [reflexivity|].
    assert (Hin : e ∈ (checkSpec spec relPath name configInfos).2).
    { rewrite Hout. apply elem_of_cons. left. reflexivity. }
    apply elem_of_checkSpec in Hin as (i & c & env & Hi & Henv & Hin).
    destruct (configSpecRef env) as [ref|] eqn:Href.
    + assert (Hc : c ∈ Containers spec) by (apply list_elem_of_lookup; eauto).
      pose proof (Hall c env ref Hc Henv Href) as Hok.
      apply (checkEnv_quiet_iff relPath name configInfos i false env ref Href) in Hok.
      rewrite Hok in Hin. inversion Hin.
    + unfold checkEnv in Hin. rewrite Href in Hin. inversion Hin.
Qed.

(** [checkSpec] reports no failure exactly when every environment entry
    of its containers that is an injection reference has its key in the
    index with the bundle name it refers to; and then it logs nothing. *)
Theorem checkSpec_passes_iff_consistent spec relPath name configInfos :
  ((checkSpec spec relPath name configInfos).1 = false <->
   forall container env ref,
     container ∈ Containers spec -> env ∈ Env container ->
     configSpecRef env = Some ref -> consistentRef configInfos ref) /\
  ((checkSpec spec relPath name configInfos).1 = false <->
   (checkSpec spec relPath name configInfos).2 = []).
Proof.
  assert (Hquiet : (checkSpec spec relPath name configInfos).1 = false <->
                   (checkSpec spec relPath name configInfos).2 = []).
  { rewrite checkSpec_verdict. split.
    - intros Hnone.
      destruct (checkSpec spec relPath name configInfos).2 as [|e out] eqn:Hout;
        [reflexivity|].
      assert (Hin : e ∈ (checkSpec spec relPath name configInfos).2).
      { rewrite Hout. apply elem_of_cons. left. reflexivity. }
      apply checkSpec_entries_fail in Hin.
      simpl in Hnone. rewrite Hin in Hnone. discriminate.
    - intros ->. reflexivity. }
  split; [|exact Hquiet].
  rewrite Hquiet. apply checkSpec_quiet_iff.
Qed.

(** An environment entry that is not named [CONFIG_SPEC], or has no
    [ValueFrom], or whose [ValueFrom] has no [ConfigMapKeyRef], is skipped:
    nothing is logged and the flag stays as it was, whatever the entry
    refers to and whatever the index holds. *)
Theorem other_environment_entries_skipped relPath name configInfos i found env :
  EnvVar_Name env <> "CONFIG_SPEC" \/
  ValueFrom env = None \/
  (exists source, ValueFrom env = Some source /\ ConfigMapKeyRef source = None) ->
  checkEnv relPath name configInfos i found env = (found, []).
Proof.
  intros Hskip.
  assert (Href : configSpecRef env = None).
  { unfold configSpecRef.
    destruct (String.eqb_spec (EnvVar_Name env) "CONFIG_SPEC") as [Hname|_];
      [|reflexivity].
    destruct Hskip as [Hne | [Hnone | (source & Hsome & Hnoref)]].
    - contradiction.
    - rewrite Hnone. reflexivity.
    - rewrite Hsome. exact Hnoref. }
  unfold checkEnv. rewrite Href. reflexivity.
Qed.

End InjectionExtras.

(** ** The index, the job walk and the output of [mainChecks] *)

Section MainExtras.

Variable zglob_Match : string -> string -> bool * option string.
Variable Info : Type.
Variable Info_Filename : Info -> string.
Variable Info_Basename : Info -> string.
Variable Info_ConfigMapName : Info -> string.
Variable JobInfo : Type.
Variable JobInfo_Filename : JobInfo -> string.
Variable JobInfo_ConfigMapName : JobInfo -> string.
Variable filepath_Rel : string -> string -> string.
Variable releaseRepoDir : string.

Abbreviation ciopCallback :=
  (ciopCallback Info Info_Filename Info_Basename Info_ConfigMapName filepath_Rel
     releaseRepoDir).
Abbreviation checkJob := (checkJob Info Info_ConfigMapName).
Abbreviation jobCallback :=
  (jobCallback Info Info_ConfigMapName JobInfo JobInfo_Filename JobInfo_ConfigMapName
     filepath_Rel releaseRepoDir).
Abbreviation mainChecks :=
  (mainChecks zglob_Match Info Info_Filename Info_Basename Info_ConfigMapName
     JobInfo JobInfo_Filename JobInfo_ConfigMapName filepath_Rel releaseRepoDir).
Abbreviation configIndex :=
  (configIndex Info Info_Filename Info_Basename Info_ConfigMapName filepath_Rel
     releaseRepoDir).
Abbreviation ciopPath := (ciopPath Info Info_Filename Info_ConfigMapName filepath_Rel
                            releaseRepoDir).
Abbreviation jobPath := (jobPath JobInfo JobInfo_Filename JobInfo_ConfigMapName
                           filepath_Rel releaseRepoDir).
Abbreviation jobEntries := (jobEntries Info Info_ConfigMapName).
Abbreviation fileEntries :=
  (fileEntries Info Info_ConfigMapName JobInfo JobInfo_Filename filepath_Rel
     releaseRepoDir).
Abbreviation checkEnv := (checkEnv Info Info_ConfigMapName).

Lemma ciopLoop_index_Some infos st key info :
  (forEach ciopCallback infos st).1.2 !! key = Some info ->
  (info ∈ infos /\ Info_Basename info = key) \/ st.2 !! key = Some info.
Proof.
  revert st. induction infos as [|x infos IH]; intros st H.
  - right. exact H.
  - rewrite forEach_cons, fst_bind in H. apply IH in H as [[Hin Hkey] | H].
    + left. split; [apply elem_of_cons; right; exact Hin | exact Hkey].
    + simpl in H. destruct (decide (Info_Basename x = key)) as [Heq | Hne].
      * rewrite Heq, lookup_insert_eq in H. injection H as <-.
        left. split; [apply elem_of_cons; left; reflexivity | exact Heq].
      * rewrite lookup_insert_ne in H by exact Hne. right. exact H.
Qed.

Lemma ciopLoop_index_None infos st key :
  (forEach ciopCallback infos st).1.2 !! key = None <->
  st.2 !! key = None /\ forall info, info ∈ infos -> Info_Basename info <> key.
Proof.
  revert st. induction infos as [|x infos IH]; intros st.
  - simpl. split; [intros H; split; [exact H | intros info Hin; inversion Hin]|].
    intros [H _]. exact H.
  - rewrite forEach_cons, fst_bind, IH. simpl. split.
    + intros [Hins Hrest].
      destruct (decide (Info_Basename x = key)) as [Heq | Hne].
      * rewrite Heq, lookup_insert_eq in Hins. discriminate.
      * rewrite lookup_insert_ne in Hins by exact Hne.
        split; [exact Hins|]. intros info Hin.
        apply elem_of_cons in Hin as [-> | Hin]; [exact Hne | apply Hrest; exact Hin].
    + intros [Hst Hall]. split.
      * rewrite lookup_insert_ne; [exact Hst|].
        apply Hall. apply elem_of_cons. left. reflexivity.
      * intros info Hin. apply Hall. apply elem_of_cons. right. exact Hin.
Qed.

(** The index built by the walk of the configuration files has an entry
    for a key exactly when some walked file has that key as its basename,
    and the entry is one of those files. *)
Theorem index_holds_walked_files ciopFiles key :
  (configIndex ciopFiles !! key = None <->
   forall info, info ∈ ciopFiles -> Info_Basename info <> key) /\
  (forall info, configIndex ciopFiles !! key = Some info ->
     info ∈ ciopFiles /\ Info_Basename info = key).
Proof.
  unfold configIndex. split.
  - rewrite ciopLoop_index_None. simpl. rewrite lookup_empty.
    split; [intros [_ H]; exact H | intros H; split; [reflexivity | exact H]].
  - intros info H. apply ciopLoop_index_Some in H as [H | H]; [exact H|].
    simpl in H. rewrite lookup_empty in H. discriminate.
Qed.

(** Against the index of the walk, an injection reference gets the
    unknown key failure exactly when no walked configuration file has the
    key of the reference as its basename. *)
Theorem unknown_key_iff_no_file ciopFiles relPath name i found env ref :
  configSpecRef env = Some ref ->
  checkEnv relPath name (configIndex ciopFiles) i found env =
    (true, [unknownKeyFailure relPath name i (ConfigMapKeyRef_Key ref)]) <->
  forall info, info ∈ ciopFiles -> Info_Basename info <> ConfigMapKeyRef_Key ref.
Proof.
  intros Href.
  assert (Hnone : configIndex ciopFiles !! ConfigMapKeyRef_Key ref = None <->
                  forall info, info ∈ ciopFiles ->
                    Info_Basename info <> ConfigMapKeyRef_Key ref).
  { unfold configIndex. rewrite ciopLoop_index_None. simpl. rewrite lookup_empty.
    split; [intros [_ H]; exact H | intros H; split; [reflexivity | exact H]]. }
  rewrite <- Hnone. unfold checkEnv. rewrite Href.
  destruct (configIndex ciopFiles !! ConfigMapKeyRef_Key ref) as [info|].
  - split; [|discriminate]. destruct (negb _); simpl; intros H.
    + apply (f_equal (fun r => entryMessage <$> r.2)) in H. simpl in H. discriminate.
    + apply (f_equal (fun r => length r.2)) in H. simpl in H. discriminate.
  - simpl. split; reflexivity.
Qed.

(** A job is checked when it has a specification, and the flag is raised
    exactly when [checkSpec] logs a failure for it. *)
Lemma checkJob_eq relPath configInfos found job :
  checkJob relPath configInfos found job =
  (found || existsb isFailure (jobEntries relPath configInfos job),
   jobEntries relPath configInfos job).
Proof.
  unfold checkJob, jobEntries. destruct (Spec job) as [spec|].
  - pose proof (checkSpec_verdict Info Info_ConfigMapName spec relPath
                  (JobBase_Name job) configInfos) as Hv.
    unfold bind.
    destruct (checkSpec Info Info_ConfigMapName spec relPath (JobBase_Name job)
                configInfos) as [failed out].
    simpl in *. rewrite <- Hv.
    destruct failed, found; simpl; rewrite app_nil_r; reflexivity.
  - simpl. rewrite orb_false_r. reflexivity.
Qed.

Lemma jobCallback_eq configInfos st file :
  jobCallback configInfos st file =
  ((st.1 ++ [jobPath file.2], st.2 || existsb isFailure (fileEntries configInfos file)),
   fileEntries configInfos file).
Proof.
  unfold jobCallback, fileEntries, jobsOf.
  set (relPath := filepath_Rel releaseRepoDir (JobInfo_Filename file.2)).
  assert (Hinner : forall found (jobs : string * list JobBase),
    forEach (checkJob relPath configInfos) jobs.2 found =
    (found || existsb isFailure (flat_map (jobEntries relPath configInfos) jobs.2),
     flat_map (jobEntries relPath configInfos) jobs.2)).
  { intros found jobs. apply forEach_flagged. intros f x. apply checkJob_eq. }
  rewrite (forEach_flagged _ _ (PresubmitsStatic file.1) st.2 Hinner).
  unfold bind at 1.
  rewrite (forEach_flagged _ _ (PostsubmitsStatic file.1) _ Hinner).
  unfold bind at 1.
  rewrite (forEach_flagged _ (jobEntries relPath configInfos) (Periodics file.1) _
             (fun f x => checkJob_eq relPath configInfos f x)).
  unfold bind, ret. rewrite app_nil_r.
  rewrite !flat_map_app, !flat_map_concat, !flat_map_map, !existsb_app.
  rewrite <- !orb_assoc, !app_assoc. reflexivity.
Qed.

Lemma jobLoop_eq configInfos files st :
  forEach (jobCallback configInfos) files st =
  ((st.1 ++ map (fun file => jobPath file.2) files,
    st.2 || existsb isFailure (flat_map (fileEntries configInfos) files)),
   flat_map (fileEntries configInfos) files).
Proof.
  revert st. induction files as [|file files IH]; intros st.
  - simpl. rewrite app_nil_r, orb_false_r. destruct st. reflexivity.
  - rewrite forEach_cons, jobCallback_eq. unfold bind. rewrite IH. simpl.
    rewrite <- app_assoc, existsb_app, orb_assoc. reflexivity.
Qed.

(** What the checks of a run are made of: the entries [checkSpec] logs
    for the jobs of the job files against the index of all the
    configuration files, then the partition check of one path for each
    configuration file and each job file in the order of the walks,
    starting from the flag of the injection failures, then the fatal entry
    when the verdict is a failure. *)
Lemma mainChecks_unfolded rangeMaps ciopFiles jobFiles :
  mainChecks rangeMaps ciopFiles jobFiles =
  let injection := flat_map (fileEntries (configIndex ciopFiles)) jobFiles in
  let partition :=
    checkPaths zglob_Match rangeMaps
      (map ciopPath ciopFiles ++ map (fun file => jobPath file.2) jobFiles)
      (existsb isFailure injection) in
  (partition.1, injection ++ partition.2 ++ if partition.1 then [fatalEntry] else []).
Proof.
  rewrite main_eq. cbv zeta. rewrite jobLoop_eq. simpl.
  rewrite ciopLoop_paths. reflexivity.
Qed.

Lemma fileEntries_fail configInfos file e :
  e ∈ fileEntries configInfos file -> isFailure e = true.
Proof.
  unfold fileEntries. intros H.
  apply list_elem_of_In, in_flat_map in H as (job & _ & H).
  unfold jobEntries in H. destruct (Spec job) as [spec|]; [|inversion H].
  apply list_elem_of_In in H. eapply checkSpec_entries_fail. exact H.
Qed.



End MainExtras.

(** ** What a passing partition check certifies *)

Section PartitionExtras.

Variable zglob_Match : string -> string -> bool * option string.
Variable Maps : gmap string ConfigMapSpec.
Variable rangeMaps : nat -> list (string * ConfigMapSpec).
Hypothesis rangeMaps_order : forall i, rangeMaps i ≡ₚ map_to_list Maps.

Abbreviation checkPaths := (checkPaths zglob_Match).
Abbreviation matches := (matches zglob_Match).
Abbreviation assigned := (assigned zglob_Match Maps).
Abbreviation acceptedRule := (acceptedRule zglob_Match).

Lemma NoDup_rangeMaps i : NoDup (rangeMaps i).
Proof. rewrite (rangeMaps_order i). apply NoDup_map_to_list. Qed.

(** When no entry of the output is a failure, every path is assigned and,
    if there is a path at all, every rule is accepted. *)
Lemma quiet_partition paths found :
  (forall e, e ∈ (checkPaths rangeMaps paths found).2 -> isFailure e = false) ->
  (forall p, p ∈ paths -> assigned p) /\
  (paths <> [] -> forall glob updateConfig,
     Maps !! glob = Some updateConfig -> acceptedRule glob updateConfig).
Proof.
  intros Hquiet.
  assert (Hrule : forall p g cfg e,
    p ∈ paths -> Maps !! g = Some cfg ->
    e ∈ ruleEntries zglob_Match p (g, cfg) -> isFailure e = false).
  { intros p g cfg e Hp Hg He. apply Hquiet.
    eapply rule_entry_logged; eauto. }
  split.
  - intros p Hp.
    pose proof Hp as Hidx. apply list_elem_of_lookup in Hidx as [i Hi].
    destruct (existsb (fun kv => matches kv.1 (path p)) (rangeMaps i)) eqn:Hex.
    + apply existsb_exists in Hex as ([g cfg] & Hin & Hm). simpl in Hm.
      apply list_elem_of_In in Hin.
      apply (elem_of_rangeMaps Maps rangeMaps rangeMaps_order) in Hin.
      exists g, cfg. split; [exact Hin | split; [exact Hm | split]].
      * destruct (String.eqb_spec (Name cfg) (configMap p)) as [Heq | Hne];
          [exact Heq|].
        assert (Hfail : isFailure (mismatchFailure (path p) g (Name cfg) (configMap p))
                        = false).
        { apply (Hrule p g cfg); [exact Hp | exact Hin |].
          apply elem_of_ruleEntries. do 4 right. auto. }
        discriminate Hfail.
      * intros g' cfg' Hg' Hm'.
        destruct (decide (g' = g)) as [Heq | Hne]; [exact Heq|].
        destruct (uniqueness_failure_logged zglob_Match Maps rangeMaps rangeMaps_order
                    paths found p g' cfg' g cfg Hp Hg' Hin Hne Hm' Hm) as [[H | H] _];
          apply Hquiet in H; discriminate H.
    + assert (Hfail : isFailure (coverageFailure (path p)) = false).
      { apply Hquiet. apply elem_of_checkPaths. exists i, p. split; [exact Hi|].
        apply elem_of_checkPath. right. right. split; [exact Hex | reflexivity]. }
      discriminate Hfail.
  - intros Hsome g cfg Hg.
    destruct paths as [|p paths']; [contradiction|].
    assert (Hp : p ∈ p :: paths') by (apply elem_of_cons; left; reflexivity).
    unfold acceptedRule. split; [|split].
    + destruct (hasDefaultCluster cfg) eqn:Halias; [|reflexivity].
      assert (Hfail : isFailure (defaultClusterFailure (path p)) = false).
      { apply (Hrule p g cfg); [exact Hp | exact Hg |].
        apply elem_of_ruleEntries. left. auto. }
      discriminate Hfail.
    + destruct (zglob_Match g jobConfigRoot).2 as [err|] eqn:Herr; [|reflexivity].
      assert (Hfail : isFailure (jobConfigCheckFailure (path p) g err) = false).
      { apply (Hrule p g cfg); [exact Hp | exact Hg |].
        apply elem_of_ruleEntries. do 2 right. left. exists err. auto. }
      discriminate Hfail.
    + intros Hroot.
      destruct (zglob_Match g jobConfigRoot).2 as [err|] eqn:Herr.
      * assert (Hfail : isFailure (jobConfigCheckFailure (path p) g err) = false).
        { apply (Hrule p g cfg); [exact Hp | exact Hg |].
          apply elem_of_ruleEntries. do 2 right. left. exists err. auto. }
        discriminate Hfail.
      * destruct (gzipOff cfg) eqn:Hoff.
        -- assert (Hfail : isFailure (gzipFailure (path p) g) = false).
           { apply (Hrule p g cfg); [exact Hp | exact Hg |].
             apply elem_of_ruleEntries. do 3 right. left. simpl.
             split; [|auto].
             destruct (zglob_Match g jobConfigRoot) as [root err']. simpl in *.
             congruence. }
           discriminate Hfail.
        -- unfold gzipOff in Hoff. destruct (GZIP cfg) as [[|]|];
             [reflexivity | discriminate | discriminate].
Qed.

(** When the partition checker, started without a failure, ends without
    one: every discovered path matches exactly one rule of the rule set,
    the bundle of that rule is the expected bundle of the path, and, when
    there is a path at all, no rule has the default cluster alias, no
    pattern fails against the job-configuration root and every rule whose
    pattern matches that root has gzip set to true. *)
Theorem partition_pass_sound paths :
  (checkPaths rangeMaps paths false).1 = false ->
  (forall p, p ∈ paths -> assigned p) /\
  (paths <> [] -> forall glob updateConfig,
     Maps !! glob = Some updateConfig -> acceptedRule glob updateConfig).
Proof.
  intros Hpass. apply (quiet_partition paths false).
  rewrite checkPaths_verdict in Hpass. simpl in Hpass.
  apply existsb_false_iff. exact Hpass.
Qed.

(** The converse.  When every discovered path is assigned and every rule
    is accepted, the partition checker leaves the flag as it was, and all
    it logs are the warnings of the pattern matches that returned an
    error. *)
Theorem partition_pass_complete paths found :
  (forall p, p ∈ paths -> assigned p) ->
  (forall glob updateConfig,
     Maps !! glob = Some updateConfig -> acceptedRule glob updateConfig) ->
  (checkPaths rangeMaps paths found).1 = found /\
  forall e, e ∈ (checkPaths rangeMaps paths found).2 ->
    exists p glob err,
      p ∈ paths /\ (zglob_Match glob (path p)).2 = Some err /\
      e = globWarning (path p) glob err.
Proof.
  intros Hassigned Haccepted.
  assert (Hlog : forall e, e ∈ (checkPaths rangeMaps paths found).2 ->
    exists p glob err,
      p ∈ paths /\ (zglob_Match glob (path p)).2 = Some err /\
      e = globWarning (path p) glob err).
  { intros e He. apply elem_of_checkPaths in He as (i & p & Hi & He).
    assert (Hp : p ∈ paths) by (apply list_elem_of_lookup; eauto).
    destruct (Hassigned p Hp) as (g0 & cfg0 & Hg0 & Hm0 & Hname & Honly).
    apply elem_of_checkPath in He
      as [([g cfg] & Hin & He) | [(pre & [g cfg] & post & Heq & Hm & Hpre & _) | [Hnone _]]].
    - apply (elem_of_rangeMaps Maps rangeMaps rangeMaps_order) in Hin.
      destruct (Haccepted g cfg Hin) as (Halias & Herr & Hgzip).
      apply elem_of_ruleEntries in He
        as [[Ha _] | [(err & Hw & ->) | [(err & Hr & _) | [(Hr & Hoff & _) | (Hm & Hne & _)]]]];
        simpl in *.
      + congruence.
      + exists p, g, err. auto.
      + congruence.
      + rewrite Hr in Hgzip. unfold gzipOff in Hoff.
        rewrite (Hgzip eq_refl) in Hoff. discriminate.
      + pose proof (Honly g cfg Hin Hm) as ->. congruence.
    - exfalso. simpl in Hm.
      apply existsb_exists in Hpre as ([g' cfg'] & Hin' & Hm'). simpl in Hm'.
      apply list_elem_of_In in Hin'.
      assert (Hin : (g, cfg) ∈ rangeMaps i).
      { rewrite Heq. apply elem_of_app. right. apply elem_of_cons. left. reflexivity. }
      assert (Hin2 : (g', cfg') ∈ rangeMaps i).
      { rewrite Heq. apply elem_of_app. left. exact Hin'. }
      apply (elem_of_rangeMaps Maps rangeMaps rangeMaps_order) in Hin, Hin2.
      pose proof (Honly g cfg Hin Hm) as ->.
      pose proof (Honly g' cfg' Hin2 Hm') as ->.
      assert (cfg' = cfg) as -> by congruence.
      pose proof (NoDup_rangeMaps i) as Hnodup. rewrite Heq in Hnodup.
      apply NoDup_app in Hnodup as (_ & Hdisjoint & _).
      apply (Hdisjoint (g0, cfg) Hin'). apply elem_of_cons. left. reflexivity.
    - exfalso.
      pose proof (proj1 (rangeMaps_unmatched zglob_Match Maps rangeMaps rangeMaps_order
                           i (path p)) Hnone g0 cfg0 Hg0) as Hno.
      congruence. }
  split; [|exact Hlog].
  rewrite checkPaths_verdict.
  assert (Hnone : existsb isFailure (checkPaths rangeMaps paths found).2 = false).
  { apply existsb_false_iff. intros e He.
    apply Hlog in He as (p & g & err & _ & _ & ->). reflexivity. }
  rewrite Hnone. apply orb_false_r.
Qed.

End PartitionExtras.

(** ** How many uniqueness failures *)

Lemma isUniqueness_forgetGlob e : isUniqueness (forgetGlob e) = isUniqueness e.
Proof.
  unfold forgetGlob, isUniqueness.
  destruct (entryMessage e) eqn:Hmsg; simpl; rewrite ?Hmsg; reflexivity.
Qed.

Lemma filter_isUniqueness_forgetGlob l :
  length (filter (fun e => isUniqueness e = true) (map forgetGlob l)) =
  length (filter (fun e => isUniqueness e = true) l).
Proof.
  induction l as [|e l IH]; [reflexivity|].
  simpl map. rewrite !filter_cons, isUniqueness_forgetGlob.
  destruct (decide (isUniqueness e = true)); simpl; rewrite IH; reflexivity.
Qed.

Lemma filter_none {A} (P : A -> Prop) `{forall x, Decision (P x)} (l : list A) :
  (forall x, x ∈ l -> ~ P x) -> filter P l = [].
Proof.
  induction l as [|x l IH]; intros Hall; [reflexivity|].
  rewrite filter_cons_False.
  - apply IH. intros y Hy. apply Hall. apply elem_of_cons. right. exact Hy.
  - apply Hall. apply elem_of_cons. left. reflexivity.
Qed.

Lemma filter_replicate_all {A} (P : A -> Prop) `{forall x, Decision (P x)} n (x : A) :
  P x -> filter P (replicate n x) = replicate n x.
Proof.
  intros Hx. induction n as [|n IH]; [reflexivity|].
  simpl. rewrite filter_cons_True by exact Hx. rewrite IH. reflexivity.
Qed.

Section CountExtras.

Variable zglob_Match : string -> string -> bool * option string.

(** One iteration of the path loop logs one uniqueness failure for every
    rule that matches the path after the first one: with [n] matching rules
    among those visited, [n - 1] uniqueness failures (none for [n = 0]). *)
Theorem uniqueness_failures_count maps found p :
  length (filter (fun e => isUniqueness e = true)
            (checkPath zglob_Match maps found p).2) =
  matchCount zglob_Match p maps - 1.
Proof.
  rewrite <- filter_isUniqueness_forgetGlob.
  rewrite (checkPath_forgetGlob zglob_Match maps found p).
  unfold pathEntries. rewrite !filter_app, !length_app.
  rewrite (filter_none _ (flat_map (ruleEntries zglob_Match p) maps)).
  - rewrite filter_replicate_all by reflexivity.
    rewrite length_replicate.
    destruct (existsb _ maps); [simpl; lia|].
    rewrite filter_cons_False by discriminate. simpl. lia.
  - intros e He.
    apply list_elem_of_In, in_flat_map in He as (kv & _ & He).
    apply list_elem_of_In, elem_of_ruleEntries in He
      as [[_ ->] | [(? & _ & ->) | [(? & _ & ->) | [(_ & _ & ->) | (_ & _ & ->)]]]];
      discriminate.
Qed.

End CountExtras.

(** ** What a passing run certifies *)

Section MainSound.

Variable zglob_Match : string -> string -> bool * option string.
Variable Info : Type.
Variable Info_Filename : Info -> string.
Variable Info_Basename : Info -> string.
Variable Info_ConfigMapName : Info -> string.
Variable JobInfo : Type.
Variable JobInfo_Filename : JobInfo -> string.
Variable JobInfo_ConfigMapName : JobInfo -> string.
Variable filepath_Rel : string -> string -> string.
Variable releaseRepoDir : string.
Variable Maps : gmap string ConfigMapSpec.
Variable rangeMaps : nat -> list (string * ConfigMapSpec).
Hypothesis rangeMaps_order : forall i, rangeMaps i ≡ₚ map_to_list Maps.

Abbreviation mainChecks :=
  (mainChecks zglob_Match Info Info_Filename Info_Basename Info_ConfigMapName
     JobInfo JobInfo_Filename JobInfo_ConfigMapName filepath_Rel releaseRepoDir).
Abbreviation configIndex :=
  (configIndex Info Info_Filename Info_Basename Info_ConfigMapName filepath_Rel
     releaseRepoDir).
Abbreviation ciopPath := (ciopPath Info Info_Filename Info_ConfigMapName filepath_Rel
                            releaseRepoDir).
Abbreviation jobPath := (jobPath JobInfo JobInfo_Filename JobInfo_ConfigMapName
                           filepath_Rel releaseRepoDir).
Abbreviation fileEntries :=
  (fileEntries Info Info_ConfigMapName JobInfo JobInfo_Filename filepath_Rel
     releaseRepoDir).
Abbreviation assigned := (assigned zglob_Match Maps).
Abbreviation acceptedRule := (acceptedRule zglob_Match).

(** What checks that hand no failure to the logger establish. *)
Lemma passing_checks_certify ciopFiles jobFiles :
  (mainChecks rangeMaps ciopFiles jobFiles).1 = false ->
  (forall info, info ∈ ciopFiles -> assigned (ciopPath info)) /\
  (forall file, file ∈ jobFiles -> assigned (jobPath file.2)) /\
  (forall file job spec container env ref,
     file ∈ jobFiles -> job ∈ jobsOf file.1 -> Spec job = Some spec ->
     container ∈ Containers spec -> env ∈ Env container ->
     configSpecRef env = Some ref ->
     exists info,
       info ∈ ciopFiles /\ Info_Basename info = ConfigMapKeyRef_Key ref /\
       Info_ConfigMapName info = ConfigMapKeyRef_Name ref) /\
  (ciopFiles <> [] \/ jobFiles <> [] ->
   forall glob updateConfig,
     Maps !! glob = Some updateConfig -> acceptedRule glob updateConfig).
Proof.
  intros Hpass. rewrite mainChecks_unfolded in Hpass. cbv zeta in Hpass. simpl in Hpass.
  rewrite checkPaths_verdict in Hpass.
  apply orb_false_iff in Hpass as [Hinjection Hpartition].
  pose proof (proj1 (existsb_false_iff _ _) Hinjection) as Hquiet.
  pose proof (quiet_partition zglob_Match Maps rangeMaps rangeMaps_order _ _
                (proj1 (existsb_false_iff _ _) Hpartition)) as [Hassigned Haccepted].
  split; [|split; [|split]].
  - intros info Hin. apply Hassigned. apply elem_of_app. left.
    apply list_elem_of_In, in_map, list_elem_of_In. exact Hin.
  - intros file Hin. apply Hassigned. apply elem_of_app. right.
    apply list_elem_of_In.
    apply (in_map (fun file => jobPath file.2)), list_elem_of_In. exact Hin.
  - intros file job spec c env ref Hfile Hjob Hspec Hc Henv Href.
    set (relPath := filepath_Rel releaseRepoDir (JobInfo_Filename file.2)).
    assert (Hnothing :
      (checkSpec Info Info_ConfigMapName spec relPath (JobBase_Name job)
         (configIndex ciopFiles)).2 = []).
    { destruct (checkSpec Info Info_ConfigMapName spec relPath (JobBase_Name job)
                  (configIndex ciopFiles)).2 as [|e out] eqn:Hout; [reflexivity|].
      assert (Hin : e ∈ fileEntries (configIndex ciopFiles) file).
      { unfold fileEntries. apply list_elem_of_In, in_flat_map.
        exists job. split; [apply list_elem_of_In; exact Hjob|].
        unfold jobEntries. rewrite Hspec. fold relPath. rewrite Hout. left. reflexivity. }
      assert (Hfails : isFailure e = true) by (eapply fileEntries_fail; exact Hin).
      assert (Hall : e ∈ flat_map (fileEntries (configIndex ciopFiles)) jobFiles).
      { apply list_elem_of_In, in_flat_map. exists file.
        split; apply list_elem_of_In; assumption. }
      rewrite (Hquiet e Hall) in Hfails. discriminate. }
    destruct (proj1 (checkSpec_quiet_iff Info Info_ConfigMapName spec relPath
                       (JobBase_Name job) (configIndex ciopFiles))
                    Hnothing c env ref Hc Henv Href) as (info & Hidx & Hname).
    unfold configIndex in Hidx.
    apply ciopLoop_index_Some in Hidx as [[Hin Hkey] | Hidx].
    + exists info. auto.
    + simpl in Hidx. rewrite lookup_empty in Hidx. discriminate.
  - intros Hsome. apply Haccepted.
    destruct Hsome as [Hsome | Hsome].
    + destruct ciopFiles; [contradiction | discriminate].
    + destruct jobFiles; [contradiction|]. destruct (map _ ciopFiles); discriminate.
Qed.

End MainSound.

(** ** The options *)

Section ValidateFacts.

Variable LogrusLevel : Type.
Variable logrus_ParseLevel : string -> LogrusLevel + string.

Abbreviation Validate := (Options.Validate LogrusLevel logrus_ParseLevel).

(** [Validate] looks at the directory first: without [--release-repo-dir]
    it returns the required flag error whatever the log level is, and so it
    does for the defaults of the flags; it returns no error exactly when
    the directory is set and the log level parses, and only then changes
    the level of the logger, to the parsed one. *)
Theorem Validate_directory_then_level o level :
  (Options.releaseRepoDir o = "" ->
   Validate o level = (Some "required flag --release-repo-dir was unset", level)) /\
  Validate Options.defaults level =
    (Some "required flag --release-repo-dir was unset", level) /\
  ((Validate o level).1 = None <->
   Options.releaseRepoDir o <> "" /\
   exists parsed, logrus_ParseLevel (Options.logLevel o) = inl parsed /\
                  (Validate o level).2 = parsed) /\
  (forall err, (Validate o level).1 = Some err -> (Validate o level).2 = level).
Proof.
  unfold Options.Validate. split; [|split; [reflexivity | split]].
  - intros ->. reflexivity.
  - destruct (String.eqb_spec (Options.releaseRepoDir o) "") as [Hdir | Hdir]; simpl.
    + split; [discriminate | tauto].
    + destruct (logrus_ParseLevel (Options.logLevel o)) as [parsed | err]; simpl; split.
      * intros _. split; [exact Hdir|]. exists parsed. auto.
      * reflexivity.
      * discriminate.
      * intros (_ & parsed & Hparsed & _). discriminate.
  - intros err.
    destruct (String.eqb (Options.releaseRepoDir o) ""); simpl; [reflexivity|].
    destruct (logrus_ParseLevel (Options.logLevel o)); simpl;
      [discriminate | reflexivity].
Qed.

End ValidateFacts.

(** ** Where a logged entry points to *)

Lemma sourceLogger_source p : sourceLogger p !! "source-file" = Some (FString p).
Proof. unfold sourceLogger, WithField. apply lookup_insert_eq. Qed.

Lemma globLogger_source p g : globLogger p g !! "source-file" = Some (FString p).
Proof.
  unfold globLogger, WithField.
  rewrite lookup_insert_ne by done. apply sourceLogger_source.
Qed.

Lemma WithError_other data err key :
  key <> "error" -> WithError data err !! key = data !! key.
Proof. intros Hne. unfold WithError. apply lookup_insert_ne. congruence. Qed.

Section Attribution.

Variable zglob_Match : string -> string -> bool * option string.
Variable Maps : gmap string ConfigMapSpec.
Variable rangeMaps : nat -> list (string * ConfigMapSpec).
Hypothesis rangeMaps_order : forall i, rangeMaps i ≡ₚ map_to_list Maps.

(** Every entry the partition checker logs carries, as [source-file], the
    path of a discovered file, and either no [glob] (the default alias and
    coverage failures) or the pattern of a rule of the rule set. *)
Theorem partition_entries_attributed paths found e :
  e ∈ (checkPaths zglob_Match rangeMaps paths found).2 ->
  exists p,
    p ∈ paths /\
    entryData e !! "source-file" = Some (FString (path p)) /\
    (entryData e !! "glob" = None \/
     exists glob updateConfig,
       Maps !! glob = Some updateConfig /\
       entryData e !! "glob" = Some (FString glob)).
Proof.
  intros He.
  apply (logged_inv zglob_Match Maps rangeMaps rangeMaps_order) in He
    as (p & Hp & [(g & cfg & Hg & He) | [(g & cfg & Hg & _ & ->) | [_ ->]]]);
    exists p; (split; [exact Hp|]).
  - apply elem_of_ruleEntries in He
      as [[_ ->] | [(? & _ & ->) | [(? & _ & ->) | [(_ & _ & ->) | (_ & _ & ->)]]]];
      simpl; rewrite ?WithError_other by done.
    + split; [apply sourceLogger_source | left; apply sourceLogger_glob].
    + split; [apply globLogger_source | right; exists g, cfg].
      split; [exact Hg | apply globLogger_glob].
    + split; [apply globLogger_source | right; exists g, cfg].
      split; [exact Hg | apply globLogger_glob].
    + split; [apply globLogger_source | right; exists g, cfg].
      split; [exact Hg | apply globLogger_glob].
    + split; [apply globLogger_source | right; exists g, cfg].
      split; [exact Hg | apply globLogger_glob].
  - simpl. split; [apply globLogger_source | right; exists g, cfg].
    split; [exact Hg | apply globLogger_glob].
  - simpl. split; [apply sourceLogger_source | left; apply sourceLogger_glob].
Qed.

End Attribution.

Section InjectionAttribution.

Variable Info : Type.
Variable Info_ConfigMapName : Info -> string.

(** Every entry [checkSpec] logs is a failure that carries the file and
    the job it was called for, the index of a container of the
    specification and the key of an injection reference of that
    container. *)
Theorem injection_entries_attributed spec relPath name configInfos e :
  e ∈ (checkSpec Info Info_ConfigMapName spec relPath name configInfos).2 ->
  isFailure e = true /\
  entryData e !! "source-file" = Some (FString relPath) /\
  entryData e !! "job" = Some (FString name) /\
  exists i container env ref,
    Containers spec !! i = Some container /\ env ∈ Env container /\
    configSpecRef env = Some ref /\
    entryData e !! "container" = Some (FInt (Z.of_nat i)) /\
    entryData e !! "key" = Some (FString (ConfigMapKeyRef_Key ref)).
Proof.
  intros He. apply elem_of_checkSpec in He as (i & c & env & Hi & Henv & He).
  unfold checkEnv in He. destruct (configSpecRef env) as [ref|] eqn:Href;
    [|inversion He].
  assert (Hfields : forall data,
    data = specLogger relPath name i (ConfigMapKeyRef_Key ref) \/
    (exists got expected,
       data = WithFields (specLogger relPath name i (ConfigMapKeyRef_Key ref))
                [("got", FString got); ("expected", FString expected)]) ->
    data !! "source-file" = Some (FString relPath) /\
    data !! "job" = Some (FString name) /\
    data !! "container" = Some (FInt (Z.of_nat i)) /\
    data !! "key" = Some (FString (ConfigMapKeyRef_Key ref))).
  { intros data [-> | (got & expected & ->)]; unfold specLogger, WithFields; simpl;
      repeat split;
      repeat (first [rewrite lookup_insert_eq; reflexivity
                    | rewrite lookup_insert_ne by done]). }
  assert (Hgoal : forall e',
    isFailure e' = true ->
    (entryData e' = specLogger relPath name i (ConfigMapKeyRef_Key ref) \/
     exists got expected,
       entryData e' = WithFields (specLogger relPath name i (ConfigMapKeyRef_Key ref))
                        [("got", FString got); ("expected", FString expected)]) ->
    isFailure e' = true /\
    entryData e' !! "source-file" = Some (FString relPath) /\
    entryData e' !! "job" = Some (FString name) /\
    exists i container env ref,
      Containers spec !! i = Some container /\ env ∈ Env container /\
      configSpecRef env = Some ref /\
      entryData e' !! "container" = Some (FInt (Z.of_nat i)) /\
      entryData e' !! "key" = Some (FString (ConfigMapKeyRef_Key ref))).
  { intros e' Hfail Hdata.
    destruct (Hfields (entryData e') Hdata) as (Hs & Hj & Hc & Hk).
    split; [exact Hfail | split; [exact Hs | split; [exact Hj|]]].
    exists i, c, env, ref. auto. }
  destruct (configInfos !! ConfigMapKeyRef_Key ref) as [info|]; simpl in He.
  - destruct (negb _); simpl in He; [|inversion He].
    apply elem_of_cons in He as [-> | He]; [|inversion He].
    apply Hgoal; [reflexivity|]. right. eauto.
  - apply elem_of_cons in He as [-> | He]; [|inversion He].
    apply Hgoal; [reflexivity|]. left. reflexivity.
Qed.

End InjectionAttribution.

(** ** Two rules for one path, and no path at all *)

Section Overlap.

Variable zglob_Match : string -> string -> bool * option string.
Variable Maps : gmap string ConfigMapSpec.
Variable rangeMaps : nat -> list (string * ConfigMapSpec).
Hypothesis rangeMaps_order : forall i, rangeMaps i ≡ₚ map_to_list Maps.

(** When two distinct rules of the rule set match a discovered path, a
    uniqueness failure for that path is logged under the pattern of one of
    the two (the one visited later), and the verdict is a failure. *)
Theorem two_matching_rules_fail paths found p glob1 updateConfig1 glob2 updateConfig2 :
  p ∈ paths ->
  Maps !! glob1 = Some updateConfig1 -> Maps !! glob2 = Some updateConfig2 ->
  glob1 <> glob2 ->
  matches zglob_Match glob1 (path p) = true ->
  matches zglob_Match glob2 (path p) = true ->
  (uniquenessFailure (path p) glob1 (configMap p) (configMap p)
     ∈ (checkPaths zglob_Match rangeMaps paths found).2 \/
   uniquenessFailure (path p) glob2 (configMap p) (configMap p)
     ∈ (checkPaths zglob_Match rangeMaps paths found).2) /\
  (checkPaths zglob_Match rangeMaps paths found).1 = true.
Proof.
  intros Hp H1 H2 Hne Hm1 Hm2.
  exact (uniqueness_failure_logged zglob_Match Maps rangeMaps rangeMaps_order
           paths found p glob1 updateConfig1 glob2 updateConfig2 Hp H1 H2 Hne Hm1 Hm2).
Qed.

End Overlap.

Section EmptyInventory.

Variable zglob_Match : string -> string -> bool * option string.
Variable Info : Type.
Variable Info_Filename : Info -> string.
Variable Info_Basename : Info -> string.
Variable Info_ConfigMapName : Info -> string.
Variable JobInfo : Type.
Variable JobInfo_Filename : JobInfo -> string.
Variable JobInfo_ConfigMapName : JobInfo -> string.
Variable filepath_Rel : string -> string -> string.
Variable LogrusLevel : Type.
Variable logrus_ParseLevel : string -> LogrusLevel + string.
Variable logrus_IsLevelEnabled : LogrusLevel -> Level -> bool.
Variable releaseRepoDir : string.

(** When the walks discover no file, the checks hand nothing to the
    logger and the run, with valid options, prints nothing and passes,
    whatever the rule set holds and whatever the level is; and job files
    whose jobs have no specification add no entry of their own to a run. *)
Theorem empty_inventory_passes rangeMaps :
  mainChecks zglob_Match Info Info_Filename Info_Basename Info_ConfigMapName
    JobInfo JobInfo_Filename JobInfo_ConfigMapName filepath_Rel releaseRepoDir
    rangeMaps [] [] = (false, []) /\
  (forall o level0,
     (Options.Validate LogrusLevel logrus_ParseLevel o level0).1 = None ->
     main zglob_Match Info Info_Filename Info_Basename Info_ConfigMapName
       JobInfo JobInfo_Filename JobInfo_ConfigMapName filepath_Rel
       LogrusLevel logrus_ParseLevel logrus_IsLevelEnabled
       o level0 rangeMaps [] [] = (false, [])) /\
  forall configInfos file,
    (forall job, job ∈ jobsOf file.1 -> Spec job = None) ->
    fileEntries Info Info_ConfigMapName JobInfo JobInfo_Filename filepath_Rel
      releaseRepoDir configInfos file = [].
Proof.
  split; [reflexivity|].
  split; [intros o level0 Hvalid; unfold main; rewrite Hvalid; reflexivity|].
  intros configInfos file Hnone. unfold fileEntries.
  induction (jobsOf file.1) as [|job jobs IH]; [reflexivity|].
  simpl. unfold jobEntries at 1.
  rewrite (Hnone job) by (apply elem_of_cons; left; reflexivity).
  simpl. apply IH. intros job' Hin. apply Hnone. apply elem_of_cons. right. exact Hin.
Qed.

End EmptyInventory.

(** ** The further properties on concrete inputs *)

Lemma other_environment_entries_witness :
  checkEnv SampleInfo sampleConfigMapName "jobs/a.yaml" "job" ∅ 0 false otherEnv =
  (false, []).
Proof.
  apply (other_environment_entries_skipped SampleInfo sampleConfigMapName
           "jobs/a.yaml" "job" ∅ 0 false otherEnv).
  left. discriminate.
Defined.

Lemma unknown_key_witness :
  checkEnv SampleInfo sampleConfigMapName "jobs/a.yaml" "job"
    (configIndex SampleInfo sampleFilename sampleBasename sampleConfigMapName
       sampleRel "" [k1First; k1Last]) 0 false missingEnv =
  (true, [unknownKeyFailure "jobs/a.yaml" "job" 0 "k2"]).
Proof.
  refine (proj2 (unknown_key_iff_no_file SampleInfo sampleFilename sampleBasename
                   sampleConfigMapName sampleRel "" [k1First; k1Last]
                   "jobs/a.yaml" "job" 0 false missingEnv
                   (mkConfigMapKeySelector "BundleY" "k2") _) _).
  - reflexivity.
  - intros info Hin.
    apply elem_of_cons in Hin as [-> | Hin]; [discriminate|].
    apply elem_of_cons in Hin as [-> | Hin]; [discriminate | inversion Hin].
Defined.

Lemma oneRule_assigns_fooYaml : assigned sampleMatch oneRule fooYaml.
Proof.
  exists "dir/*.yaml", bundleA.
  split; [reflexivity | split; [reflexivity | split; [reflexivity|]]].
  intros glob updateConfig H _. unfold oneRule in H.
  apply lookup_singleton_Some in H as [<- _]. reflexivity.
Defined.

Lemma oneRule_accepted glob updateConfig :
  oneRule !! glob = Some updateConfig -> acceptedRule sampleMatch glob updateConfig.
Proof.
  intros H. unfold oneRule in H. apply lookup_singleton_Some in H as [<- <-].
  split; [reflexivity | split; [reflexivity | intros Hroot; discriminate Hroot]].
Defined.

Lemma partition_pass_sound_witness : assigned sampleMatch oneRule fooYaml.
Proof.
  refine (proj1 (partition_pass_sound sampleMatch oneRule (inMapOrder oneRule)
                   (fun _ => Permutation_refl _) [fooYaml] _) fooYaml _).
  - vm_compute. reflexivity.
  - constructor.
Defined.

Lemma partition_pass_complete_witness :
  (checkPaths sampleMatch (inMapOrder oneRule) [fooYaml] false).1 = false.
Proof.
  refine (proj1 (partition_pass_complete sampleMatch oneRule (inMapOrder oneRule)
                   (fun _ => Permutation_refl _) [fooYaml] false _ _)).
  - intros p Hp. apply elem_of_cons in Hp as [-> | Hp]; [|inversion Hp].
    exact oneRule_assigns_fooYaml.
  - exact oneRule_accepted.
Defined.

Lemma partition_entries_attributed_witness :
  exists p,
    p ∈ [otherYaml] /\
    entryData (coverageFailure "other/foo.yaml") !! "source-file"
      = Some (FString (path p)) /\
    (entryData (coverageFailure "other/foo.yaml") !! "glob" = None \/
     exists glob updateConfig,
       oneRule !! glob = Some updateConfig /\
       entryData (coverageFailure "other/foo.yaml") !! "glob" = Some (FString glob)).
Proof.
  apply (partition_entries_attributed sampleMatch oneRule (inMapOrder oneRule)
           (fun _ => Permutation_refl _) [otherYaml] false).
  apply (bool_decide_unpack _). vm_compute. exact I.
Defined.

Lemma injection_entries_attributed_witness :
  isFailure (wrongShardFailure "jobs/a.yaml" "job" 0 "k1" "BundleX" "BundleY") = true /\
  entryData (wrongShardFailure "jobs/a.yaml" "job" 0 "k1" "BundleX" "BundleY")
    !! "source-file" = Some (FString "jobs/a.yaml").
Proof.
  destruct (injection_entries_attributed SampleInfo sampleConfigMapName injectedSpec
              "jobs/a.yaml" "job" {[ "k1" := k1Last ]}
              (wrongShardFailure "jobs/a.yaml" "job" 0 "k1" "BundleX" "BundleY"))
    as (Hfail & Hsource & _).
  - apply (bool_decide_unpack _). vm_compute. exact I.
  - split; [exact Hfail | exact Hsource].
Defined.

Lemma two_matching_rules_witness :
  (checkPaths sampleMatch (inMapOrder twoRules) [fooYaml] false).1 = true.
Proof.
  refine (proj2 (two_matching_rules_fail sampleMatch twoRules (inMapOrder twoRules)
                   (fun _ => Permutation_refl _) [fooYaml] false fooYaml
                   "dir/*.yaml" bundleA "dir/foo.*" bundleB _ _ _ _ _ _)).
  - constructor.
  - vm_compute. reflexivity.
  - vm_compute. reflexivity.
  - discriminate.
  - reflexivity.
  - reflexivity.
Defined.

(** ** [main]: the level of the logger and the orders of the maps *)

Lemma concat_snd_Permutation {A B} (l l' : list (A * list B)) :
  l ≡ₚ l' -> concat (map snd l) ≡ₚ concat (map snd l').
Proof.
  induction 1 as [|x l l' _ IH|x y l|l l' l'' _ IH1 _ IH2]; simpl.
  - reflexivity.
  - rewrite IH. reflexivity.
  - rewrite !app_assoc. apply Permutation_app_tail. apply Permutation_app_comm.
  - rewrite IH1. exact IH2.
Qed.

Section ProgramFacts.

Variable zglob_Match : string -> string -> bool * option string.
Variable Info : Type.
Variable Info_Filename : Info -> string.
Variable Info_Basename : Info -> string.
Variable Info_ConfigMapName : Info -> string.
Variable JobInfo : Type.
Variable JobInfo_Filename : JobInfo -> string.
Variable JobInfo_ConfigMapName : JobInfo -> string.
Variable filepath_Rel : string -> string -> string.
Variable LogrusLevel : Type.
Variable logrus_ParseLevel : string -> LogrusLevel + string.
Variable logrus_IsLevelEnabled : LogrusLevel -> Level -> bool.

Abbreviation mainChecks :=
  (mainChecks zglob_Match Info Info_Filename Info_Basename Info_ConfigMapName
     JobInfo JobInfo_Filename JobInfo_ConfigMapName filepath_Rel).
Abbreviation main :=
  (main zglob_Match Info Info_Filename Info_Basename Info_ConfigMapName
     JobInfo JobInfo_Filename JobInfo_ConfigMapName filepath_Rel
     LogrusLevel logrus_ParseLevel logrus_IsLevelEnabled).
Abbreviation Validate := (Options.Validate LogrusLevel logrus_ParseLevel).
Abbreviation printed := (printed LogrusLevel logrus_IsLevelEnabled).
Abbreviation configIndex :=
  (configIndex Info Info_Filename Info_Basename Info_ConfigMapName filepath_Rel).
Abbreviation ciopPath := (ciopPath Info Info_Filename Info_ConfigMapName filepath_Rel).
Abbreviation jobPath := (jobPath JobInfo JobInfo_Filename JobInfo_ConfigMapName
                           filepath_Rel).
Abbreviation fileEntries :=
  (fileEntries Info Info_ConfigMapName JobInfo JobInfo_Filename filepath_Rel).



Lemma printed_forgetGlob level entries :
  map forgetGlob (printed level entries) = printed level (map forgetGlob entries).
Proof.
  unfold printed. induction entries as [|e entries IH]; [reflexivity|].
  simpl map. rewrite !filter_cons.
  assert (Hlevel : entryLevel (forgetGlob e) = entryLevel e).
  { unfold forgetGlob. destruct (entryMessage e); reflexivity. }
  rewrite Hlevel.
  destruct (decide (logrus_IsLevelEnabled level (entryLevel e) = true));
    simpl; rewrite IH; reflexivity.
Qed.

Lemma printed_Permutation level l l' :
  l ≡ₚ l' -> printed level l ≡ₚ printed level l'.
Proof. intros H. unfold printed. rewrite H. reflexivity. Qed.


Lemma main_valid o level0 rangeMaps ciopFiles jobFiles :
  (Validate o level0).1 = None ->
  main o level0 rangeMaps ciopFiles jobFiles =
  ((mainChecks (Options.releaseRepoDir o) rangeMaps ciopFiles jobFiles).1,
   printed (Validate o level0).2
     (mainChecks (Options.releaseRepoDir o) rangeMaps ciopFiles jobFiles).2).
Proof. intros H. unfold main. rewrite H. reflexivity. Qed.



(** The checks of two runs that range over the rules and over the maps of
    jobs in orders of their own. *)
Lemma mainChecks_agree releaseRepoDir (rangeMaps rangeMaps' : nat -> list (string * ConfigMapSpec))
    ciopFiles (jobFiles jobFiles' : list (JobConfig * JobInfo)) :
  (forall i, rangeMaps i ≡ₚ rangeMaps' i) ->
  Forall2 sameJobs jobFiles jobFiles' ->
  (mainChecks releaseRepoDir rangeMaps ciopFiles jobFiles).1 =
  (mainChecks releaseRepoDir rangeMaps' ciopFiles jobFiles').1 /\
  map forgetGlob (mainChecks releaseRepoDir rangeMaps ciopFiles jobFiles).2 ≡ₚ
  map forgetGlob (mainChecks releaseRepoDir rangeMaps' ciopFiles jobFiles').2.
Proof.
  intros Hperm Hjobs. rewrite !mainChecks_unfolded. cbv zeta.
  set (index := configIndex releaseRepoDir ciopFiles).
  assert (Hinjection : flat_map (fileEntries releaseRepoDir index) jobFiles ≡ₚ
                       flat_map (fileEntries releaseRepoDir index) jobFiles').
  { clear -Hjobs.
    induction Hjobs as [|file file' files files' (Hpre & Hpost & Hper & Hinfo) _ IH];
      [reflexivity|]. simpl. rewrite IH. apply Permutation_app_tail.
    unfold fileEntries. rewrite Hinfo.
    assert (Hjobs' : jobsOf file.1 ≡ₚ jobsOf file'.1).
    { unfold jobsOf. rewrite Hper.
      rewrite (concat_snd_Permutation _ _ Hpre), (concat_snd_Permutation _ _ Hpost).
      reflexivity. }
    clear -Hjobs'. induction Hjobs' as [|x l l' _ IHl|x y l|l l' l'' _ IH1 _ IH2]; simpl.
    - reflexivity.
    - rewrite IHl. reflexivity.
    - rewrite !app_assoc. apply Permutation_app_tail. apply Permutation_app_comm.
    - rewrite IH1. exact IH2. }
  assert (Hpaths : map (fun file : JobConfig * JobInfo => jobPath releaseRepoDir file.2)
                     jobFiles =
                   map (fun file : JobConfig * JobInfo => jobPath releaseRepoDir file.2)
                     jobFiles').
  { clear -Hjobs. induction Hjobs as [|file file' files files' (_ & _ & _ & Hinfo) _ IH];
      [reflexivity|]. simpl. rewrite Hinfo, IH. reflexivity. }
  rewrite Hpaths.
  set (paths := map (ciopPath releaseRepoDir) ciopFiles ++
                map (fun file : JobConfig * JobInfo => jobPath releaseRepoDir file.2)
                  jobFiles').
  rewrite <- (existsb_Permutation isFailure _ _ Hinjection).
  set (found := existsb isFailure (flat_map (fileEntries releaseRepoDir index) jobFiles)).
  assert (Hout :
    map forgetGlob (checkPaths zglob_Match rangeMaps paths found).2 ≡ₚ
    map forgetGlob (checkPaths zglob_Match rangeMaps' paths found).2).
  { apply checkPaths_forgetGlob. exact Hperm. }
  assert (Hverdict :
    (checkPaths zglob_Match rangeMaps paths found).1 =
    (checkPaths zglob_Match rangeMaps' paths found).1).
  { rewrite !checkPaths_verdict. f_equal.
    rewrite <- (existsb_isFailure_forgetGlob
                  (checkPaths zglob_Match rangeMaps paths found).2).
    rewrite <- (existsb_isFailure_forgetGlob
                  (checkPaths zglob_Match rangeMaps' paths found).2).
    apply existsb_Permutation. exact Hout. }
  simpl. split; [exact Hverdict|].
  rewrite !map_app, Hout, Hverdict, Hinjection. reflexivity.
Qed.

(** C8, as the program has it.  Two runs with the same options on the
    same rule set and the same walks, each ranging over the rules and over
    the maps of presubmits and postsubmits of the job files in orders of
    its own, end in the same verdict and print the same entries as often,
    up to the glob a uniqueness failure is attributed to; two runs that
    range over all these maps in the same orders print the same output. *)
Theorem runs_agree_up_to_uniqueness_glob (Maps : gmap string ConfigMapSpec) o level0
    (rangeMaps rangeMaps' : nat -> list (string * ConfigMapSpec))
    ciopFiles (jobFiles jobFiles' : list (JobConfig * JobInfo)) :
  (forall i, rangeMaps i ≡ₚ map_to_list Maps) ->
  (forall i, rangeMaps' i ≡ₚ map_to_list Maps) ->
  Forall2 sameJobs jobFiles jobFiles' ->
  (main o level0 rangeMaps ciopFiles jobFiles).1 =
  (main o level0 rangeMaps' ciopFiles jobFiles').1 /\
  map forgetGlob (main o level0 rangeMaps ciopFiles jobFiles).2 ≡ₚ
  map forgetGlob (main o level0 rangeMaps' ciopFiles jobFiles').2 /\
  ((forall i, rangeMaps i = rangeMaps' i) -> jobFiles = jobFiles' ->
   main o level0 rangeMaps ciopFiles jobFiles =
   main o level0 rangeMaps' ciopFiles jobFiles').
Proof.
  intros Horder Horder' Hjobs.
  assert (Hperm : forall i, rangeMaps i ≡ₚ rangeMaps' i).
  { intros i. rewrite Horder, Horder'. reflexivity. }
  destruct (mainChecks_agree (Options.releaseRepoDir o) rangeMaps rangeMaps'
              ciopFiles jobFiles jobFiles' Hperm Hjobs) as [Hverdict Hout].
  unfold main.
  destruct (Validate o level0).1 as [err|].
  - split; [reflexivity | split; [reflexivity|]]. intros _ _. reflexivity.
  - simpl. split; [exact Hverdict | split].
    + rewrite !printed_forgetGlob. apply printed_Permutation. exact Hout.
    + intros Hsame <-.
      assert (Heq : mainChecks (Options.releaseRepoDir o) rangeMaps ciopFiles jobFiles =
                    mainChecks (Options.releaseRepoDir o) rangeMaps' ciopFiles jobFiles).
      { rewrite !mainChecks_unfolded. cbv zeta.
        assert (Hpaths : forall paths found,
                  checkPaths zglob_Match rangeMaps paths found =
                  checkPaths zglob_Match rangeMaps' paths found).
        { intros paths found. unfold checkPaths. apply forEachFrom_ext.
          intros i s x. rewrite Hsame. reflexivity. }
        rewrite Hpaths. reflexivity. }
      rewrite Heq. reflexivity.
Qed.

(** When the run passes: the options were valid; the path of every
    configuration file and of every job file of the walks matches exactly
    one rule of the rule set, whose bundle is the one expected for the
    file; every injection reference of every container of every job of the
    job files names the basename of a walked configuration file together
    with the bundle of that file; and, when a file was discovered at all,
    every rule is accepted.  This holds at every level of the logger. *)
Theorem passing_run_certifies (Maps : gmap string ConfigMapSpec) o level0
    (rangeMaps : nat -> list (string * ConfigMapSpec)) ciopFiles jobFiles :
  (forall i, rangeMaps i ≡ₚ map_to_list Maps) ->
  (main o level0 rangeMaps ciopFiles jobFiles).1 = false ->
  (Validate o level0).1 = None /\
  (forall info, info ∈ ciopFiles ->
     assigned zglob_Match Maps (ciopPath (Options.releaseRepoDir o) info)) /\
  (forall file, file ∈ jobFiles ->
     assigned zglob_Match Maps (jobPath (Options.releaseRepoDir o) file.2)) /\
  (forall file job spec container env ref,
     file ∈ jobFiles -> job ∈ jobsOf file.1 -> Spec job = Some spec ->
     container ∈ Containers spec -> env ∈ Env container ->
     configSpecRef env = Some ref ->
     exists info,
       info ∈ ciopFiles /\ Info_Basename info = ConfigMapKeyRef_Key ref /\
       Info_ConfigMapName info = ConfigMapKeyRef_Name ref) /\
  (ciopFiles <> [] \/ jobFiles <> [] ->
   forall glob updateConfig,
     Maps !! glob = Some updateConfig -> acceptedRule zglob_Match glob updateConfig).
Proof.
  intros Horder Hpass.
  destruct (Validate o level0).1 as [err|] eqn:Hvalid.
  - unfold main in Hpass. rewrite Hvalid in Hpass. discriminate Hpass.
  - split; [reflexivity|].
    rewrite (main_valid _ _ _ _ _ Hvalid) in Hpass. simpl in Hpass.
    exact (passing_checks_certify zglob_Match Info Info_Filename Info_Basename
             Info_ConfigMapName JobInfo JobInfo_Filename JobInfo_ConfigMapName
             filepath_Rel (Options.releaseRepoDir o) Maps rangeMaps Horder
             ciopFiles jobFiles Hpass).
Qed.

End ProgramFacts.

(** ** Runs of [main] on concrete inputs *)

(** C8 as stated fails: two rules match the file [ab]; the uniqueness
    failure carries the glob of the rule visited second, so the two orders
    of the rules give different failures. *)
Lemma failures_depend_on_rule_order :
  [("a*", bundleA); ("*b", bundleA)] ≡ₚ map_to_list overlappingRules /\
  [("*b", bundleA); ("a*", bundleA)] ≡ₚ map_to_list overlappingRules /\
  sampleMain (fun _ => [("a*", bundleA); ("*b", bundleA)]) [abFile] [] =
  (true, [uniquenessFailure "ab" "*b" "BundleA" "BundleA"; fatalEntry]) /\
  sampleMain (fun _ => [("*b", bundleA); ("a*", bundleA)]) [abFile] [] =
  (true, [uniquenessFailure "ab" "a*" "BundleA" "BundleA"; fatalEntry]) /\
  uniquenessFailure "ab" "*b" "BundleA" "BundleA"
    ∉ (sampleMain (fun _ => [("*b", bundleA); ("a*", bundleA)]) [abFile] []).2.
Proof.
  split; [|split; [|split; [|split]]].
  - vm_compute. first [reflexivity | apply perm_swap].
  - vm_compute. first [reflexivity | apply perm_swap].
  - vm_compute. reflexivity.
  - vm_compute. reflexivity.
  - apply (bool_decide_unpack _). vm_compute. exact I.
Qed.

(** Two runs on the overlapping rules and a job file with two
    repositories, each map ranged over in the two orders. *)
Lemma rule_order_witness :
  (sampleMain (fun _ => [("a*", bundleA); ("*b", bundleA)]) [abFile] [twoRepos]).1 =
  (sampleMain (fun _ => [("*b", bundleA); ("a*", bundleA)]) [abFile] [twoReposSwapped]).1 /\
  map forgetGlob
    (sampleMain (fun _ => [("a*", bundleA); ("*b", bundleA)]) [abFile] [twoRepos]).2 ≡ₚ
  map forgetGlob
    (sampleMain (fun _ => [("*b", bundleA); ("a*", bundleA)]) [abFile] [twoReposSwapped]).2.
Proof.
  destruct (runs_agree_up_to_uniqueness_glob sampleMatch SampleInfo sampleFilename
              sampleBasename sampleConfigMapName SampleInfo sampleFilename
              sampleConfigMapName sampleRel Logrus.LoggerLevel Logrus.ParseLevel
              Logrus.IsLevelEnabled overlappingRules
              (Options.mkOptions "." "info") Logrus.InfoLevel
              (fun _ => [("a*", bundleA); ("*b", bundleA)])
              (fun _ => [("*b", bundleA); ("a*", bundleA)])
              [abFile] [twoRepos] [twoReposSwapped])
    as (Hverdict & Hout & _).
  - intros _. vm_compute. first [reflexivity | apply perm_swap].
  - intros _. vm_compute. first [reflexivity | apply perm_swap].
  - constructor; [|constructor].
    split; [apply perm_swap | split; [reflexivity | split; reflexivity]].
  - split; [exact Hverdict | exact Hout].
Defined.

(** The order of the entries of the two runs of the example: the
    injection failures follow the order of the repositories. *)
Lemma job_order_changes_output :
  (sampleMain (fun _ => [("a*", bundleA); ("*b", bundleA)]) [abFile] [twoRepos]).2 <>
  (sampleMain (fun _ => [("a*", bundleA); ("*b", bundleA)]) [abFile] [twoReposSwapped]).2.
Proof. vm_compute. discriminate. Qed.



Lemma passing_run_witness :
  assigned sampleMatch oneRule
    (ciopPath SampleInfo sampleFilename sampleConfigMapName sampleRel "." fooConfig) /\
  exists info,
    info ∈ [fooConfig] /\ sampleBasename info = "k1" /\
    sampleConfigMapName info = "BundleA".
Proof.
  destruct (passing_run_certifies sampleMatch SampleInfo sampleFilename sampleBasename
              sampleConfigMapName SampleInfo sampleFilename sampleConfigMapName
              sampleRel Logrus.LoggerLevel Logrus.ParseLevel Logrus.IsLevelEnabled
              oneRule (Options.mkOptions "." "info") Logrus.InfoLevel
              (inMapOrder oneRule) [fooConfig] [jobsFile])
    as (_ & Hconfig & _ & Hrefs & _).
  - intros i. reflexivity.
  - vm_compute. reflexivity.
  - split.
    + apply Hconfig. constructor.
    + apply (Hrefs jobsFile
               (mkJobBase "pre" (Some (mkPodSpec [] [mkContainer [consistentEnv]])))
               (mkPodSpec [] [mkContainer [consistentEnv]])
               (mkContainer [consistentEnv]) consistentEnv
               (mkConfigMapKeySelector "BundleA" "k1")).
      * constructor.
      * constructor.
      * reflexivity.
      * constructor.
      * constructor.
      * reflexivity.
Defined.

Lemma empty_inventory_witness :
  sampleMain (inMapOrder twoRules) [] [] = (false, []).
Proof.
  refine (proj1 (proj2 (empty_inventory_passes sampleMatch SampleInfo sampleFilename
                          sampleBasename sampleConfigMapName SampleInfo sampleFilename
                          sampleConfigMapName sampleRel Logrus.LoggerLevel
                          Logrus.ParseLevel Logrus.IsLevelEnabled "."
                          (inMapOrder twoRules))) _ _ _).
  reflexivity.
Defined.
